(** * VivaSpot -> GoHighLevel contact sync: a shallow embedding

    The development follows the JavaScript sources:
    - [services/sync.js]   : [processContact], [isOptedIn], [parseName]
    - [services/ghl.js]    : [refreshAccessToken], [ensureValidToken], [createContact]
    - [db/queries.js]      : the query helpers over the PostgreSQL tables
    - [routes/setup.js]    : [normalizeMacAddress] and the manual setup handler

    Strings are Rocq [string]s (sequences of 8-bit characters); the case
    conversions and the whitespace class are the ASCII ones.  Asynchronous
    functions become computations in a state-and-exception monad over a
    [World] that holds the database tables, the clock, the answers the CRM
    will give, and the schedule of storage faults. *)

From Stdlib Require Import ZArith List String Ascii Bool Arith Lia.
From Stdlib Require Import DecimalString Permutation Sorted.
Import ListNotations.

Set Warnings "-register-all".

Local Open Scope string_scope.
Local Open Scope list_scope.

(* ================================================================== *)
(** * JavaScript strings *)
(* ================================================================== *)

Module JsString.

Definition in_range (lo hi : nat) (c : ascii) : bool :=
  (lo <=? nat_of_ascii c)%nat && (nat_of_ascii c <=? hi)%nat.

Definition is_upper (c : ascii) : bool := in_range 65 90 c.
Definition is_lower (c : ascii) : bool := in_range 97 122 c.
Definition is_digit (c : ascii) : bool := in_range 48 57 c.

(** The class [\s] of a regular expression and of [String.prototype.trim]:
    tab, line feed, vertical tab, form feed, carriage return, space. *)
Definition is_space (c : ascii) : bool :=
  in_range 9 13 c || (nat_of_ascii c =? 32)%nat.

Definition lower_char (c : ascii) : ascii :=
  if is_upper c then ascii_of_nat (nat_of_ascii c + 32) else c.

Definition upper_char (c : ascii) : ascii :=
  if is_lower c then ascii_of_nat (nat_of_ascii c - 32) else c.

Fixpoint map_chars (f : ascii -> ascii) (s : string) : string :=
  match s with
  | EmptyString => EmptyString
  | String c s' => String (f c) (map_chars f s')
  end.

Fixpoint filter_chars (p : ascii -> bool) (s : string) : string :=
  match s with
  | EmptyString => EmptyString
  | String c s' => if p c then String c (filter_chars p s') else filter_chars p s'
  end.

Fixpoint all_chars (p : ascii -> bool) (s : string) : bool :=
  match s with
  | EmptyString => true
  | String c s' => p c && all_chars p s'
  end.

Fixpoint any_char (p : ascii -> bool) (s : string) : bool :=
  match s with
  | EmptyString => false
  | String c s' => p c || any_char p s'
  end.

(** [s.toLowerCase()] and [s.toUpperCase()]. *)
Definition toLowerCase (s : string) : string := map_chars lower_char s.
Definition toUpperCase (s : string) : string := map_chars upper_char s.

Fixpoint rev_append (acc s : string) : string :=
  match s with
  | EmptyString => acc
  | String c s' => rev_append (String c acc) s'
  end.

Definition rev (s : string) : string := rev_append EmptyString s.

Fixpoint trim_start (s : string) : string :=
  match s with
  | EmptyString => EmptyString
  | String c s' => if is_space c then trim_start s' else s
  end.

(** [s.trim()]. *)
Definition trim (s : string) : string :=
  rev (trim_start (rev (trim_start s))).

(** [s.replace(/-/g, ':')]. *)
Definition replace_hyphens (s : string) : string :=
  map_chars (fun c => if Ascii.eqb c "-" then ":"%char else c) s.

(** [s.includes(t)]. *)
Fixpoint includes (s t : string) : bool :=
  match s with
  | EmptyString => String.eqb t EmptyString
  | String _ s' => String.prefix t s || includes s' t
  end.

(** [s.split(re)] for a regular expression [re] matching a non-empty run
    of separator characters, such as [/\s+/]: maximal runs of separators
    are removed and the pieces between them, empty ones at either end
    included, are returned. *)
Fixpoint split_runs (sep : ascii -> bool) (cur : string) (in_run : bool)
         (s : string) : list string :=
  match s with
  | EmptyString => [rev cur]
  | String c s' =>
      if sep c then
        if in_run then split_runs sep cur true s'
        else rev cur :: split_runs sep EmptyString true s'
      else split_runs sep (String c cur) false s'
  end.

Definition split_on (sep : ascii -> bool) (s : string) : list string :=
  split_runs sep EmptyString false s.

(** [s.split(' ')[0]]: the text before the first space. *)
Fixpoint before_space (s : string) : string :=
  match s with
  | EmptyString => EmptyString
  | String c s' => if Ascii.eqb c " " then EmptyString else String c (before_space s')
  end.

(** Template-literal interpolation of an integer. *)
Definition of_Z (z : Z) : string := NilZero.string_of_int (Z.to_int z).

End JsString.

Import JsString.

(* ================================================================== *)
(** * JavaScript values, as they arrive in a JSON request body *)
(* ================================================================== *)

(** Numbers are represented by integers: the code modelled here only asks
    whether a number is zero. *)
Inductive JsValue : Type :=
| JsUndefined
| JsNull
| JsBoolean (b : bool)
| JsNumber (n : Z)
| JsStr (s : string)
| JsArray (items : list JsValue)
| JsObject (fields : list (string * JsValue)).

(** Coercion of a value to a boolean, as in [if (v)] or [some(v => v)]. *)
Definition truthy (v : JsValue) : bool :=
  match v with
  | JsUndefined | JsNull => false
  | JsBoolean b => b
  | JsNumber n => negb (n =? 0)%Z
  | JsStr s => negb (String.eqb s "")
  | JsArray _ | JsObject _ => true
  end.

(** Truthiness of an optional string field ([undefined] when absent). *)
Definition present (s : option string) : bool :=
  match s with
  | Some s => negb (String.eqb s "")
  | None => false
  end.

(* ------------------------------------------------------------------ *)
(** ** [isOptedIn] (services/sync.js) *)

Definition isOptedIn (optIn : JsValue) : bool :=
  match optIn with
  | JsUndefined | JsNull => false
  | JsBoolean b => b
  | JsStr s =>
      let lower := toLowerCase s in
      String.eqb lower "yes" || String.eqb lower "true" || String.eqb lower "1"
  | JsArray items => (0 <? List.length items)%nat
  | JsObject fields => existsb (fun kv => truthy (snd kv)) fields
  | JsNumber _ => false
  end.

(* ------------------------------------------------------------------ *)
(** ** [parseName] (services/sync.js) *)

Definition parseName (name : option string) : string * string :=
  match name with
  | None => ("", "")
  | Some name =>
      if String.eqb name "" then ("", "")
      else
        let trimmed := trim name in
        match split_on is_space trimmed with
        | [] => ("", "")
        | [first] => (first, "")
        | first :: others => (first, String.concat " " others)
        end
  end.

(* ------------------------------------------------------------------ *)
(** ** [normalizeMacAddress] (routes/setup.js) *)

(** The character class [[:\-\.\s]]. *)
Definition is_mac_separator (c : ascii) : bool :=
  Ascii.eqb c ":" || Ascii.eqb c "-" || Ascii.eqb c "." || is_space c.

(** The character class [[0-9a-f]]. *)
Definition is_hex_lower (c : ascii) : bool :=
  is_digit c || in_range 97 102 c.

(** [/^[0-9a-f]{12}$/.test(s)]. *)
Definition is_hex12 (s : string) : bool :=
  (String.length s =? 12)%nat && all_chars is_hex_lower s.

(** [s.match(/.{2}/g)]: consecutive two-character pieces. *)
Fixpoint octets (s : string) : list string :=
  match s with
  | String a (String b rest) => String a (String b EmptyString) :: octets rest
  | _ => []
  end.

Definition normalizeMacAddress (mac : string) : option string :=
  if String.eqb mac "" then None
  else
    let cleaned := toLowerCase (filter_chars (fun c => negb (is_mac_separator c)) mac) in
    if negb (is_hex12 cleaned) then None
    else Some (String.concat ":" (octets cleaned)).

(* ================================================================== *)
(** * The database tables (db/migrations/001_initial.sql) *)
(* ================================================================== *)

(** Timestamps are milliseconds since the epoch, as [Date.now()] gives them. *)
Record Connection : Type := {
  ghl_location_id : string;
  access_token : string;
  refresh_token : string;
  token_expires_at : Z;
  is_active : bool
}.

Record LocationMapping : Type := {
  lm_location_id : string;
  vivaspot_mac : string;
  vivaspot_location : string
}.

Record MacMapping : Type := {
  mac_address : string;
  mm_location_id : string;
  source_restaurant : option string;
  source_tag : option string
}.

Record Site : Type := {
  site_id : Z;
  restaurant_name : string;
  hospitality_group : option string;
  merchant_emails : list string;
  mac_addresses : list string
}.

Record SyncedContact : Type := {
  sc_location_id : string;
  contact_email : string;
  sc_contact_id : string
}.

Inductive Status : Type := Success | Skipped | Error.

Record SyncLogRow : Type := {
  sl_location_id : string;
  sl_mac : string;
  sl_email : string;
  sl_status : Status;
  sl_contact_id : option string;
  sl_error_message : option string
}.

(* ================================================================== *)
(** * The outside world *)
(* ================================================================== *)

(** The JSON body of [POST /contacts/]. *)
Record ContactBody : Type := {
  body_locationId : string;
  body_email : string;
  body_source : string;
  body_tags : list string;
  body_firstName : option string;
  body_lastName : option string;
  body_phone : option string
}.

(** What the token endpoint answers: a token set, a response that is not
    [ok] with its text, or a rejected [fetch]. *)
Inductive TokenResponse : Type :=
| TokenOk (accessToken refreshToken : string) (expiresIn : Z)
| TokenRejected (text : string)
| TokenNetworkError (message : string).

(** What the contacts endpoint answers; [data.contact] of a response that
    is [ok] carries the [id] of the contact. *)
Inductive ContactResponse : Type :=
| ContactCreated (id : string)
| ContactRejected (httpStatus : Z) (text : string)
| ContactNetworkError (message : string).

(** A request sent to the CRM, with the answer it got. *)
Inductive HttpExchange : Type :=
| RefreshExchange (refreshToken : string) (response : TokenResponse)
| ContactExchange (accessToken : string) (body : ContactBody)
                  (response : ContactResponse).

(** The query helpers, used to label storage faults. *)
Inductive DbOp : Type :=
| OpGetGHLConnection
| OpUpdateGHLTokens
| OpAddLocationMapping
| OpGetLocationByMAC
| OpSelectMacMapping
| OpUpdateMacMapping
| OpInsertMacMapping
| OpGetMacMappingWithTag
| OpFindGroup
| OpFindByName
| OpFindByEmail
| OpIsContactSynced
| OpRecordSyncedContact
| OpLogSync (status : Status).

(** [db_faults] schedules the fate of the coming queries, one entry per
    query: [None] lets it run, [Some msg] makes it reject with [msg]; past
    the end of the schedule every query runs.  [fault_log] records the
    faults that fired.  [token_endpoint] and [contacts_endpoint] hold the
    answers to the coming requests; a request past the end is a rejected
    [fetch].  [http_calls] records the requests made, with their answers. *)
Record World : Type := {
  now : Z;
  ghl_connections : list Connection;
  location_mappings : list LocationMapping;
  mac_mappings : list MacMapping;
  vivaspot_sites : list Site;
  synced_contacts : list SyncedContact;
  sync_log : list SyncLogRow;
  db_faults : list (option string);
  fault_log : list (DbOp * string);
  token_endpoint : list TokenResponse;
  contacts_endpoint : list ContactResponse;
  http_calls : list HttpExchange
}.

Definition with_ghl_connections (v : list Connection) (w : World) : World :=
  {| now := now w; ghl_connections := v; location_mappings := location_mappings w;
     mac_mappings := mac_mappings w; vivaspot_sites := vivaspot_sites w;
     synced_contacts := synced_contacts w; sync_log := sync_log w;
     db_faults := db_faults w; fault_log := fault_log w;
     token_endpoint := token_endpoint w; contacts_endpoint := contacts_endpoint w;
     http_calls := http_calls w |}.

Definition with_location_mappings (v : list LocationMapping) (w : World) : World :=
  {| now := now w; ghl_connections := ghl_connections w; location_mappings := v;
     mac_mappings := mac_mappings w; vivaspot_sites := vivaspot_sites w;
     synced_contacts := synced_contacts w; sync_log := sync_log w;
     db_faults := db_faults w; fault_log := fault_log w;
     token_endpoint := token_endpoint w; contacts_endpoint := contacts_endpoint w;
     http_calls := http_calls w |}.

Definition with_mac_mappings (v : list MacMapping) (w : World) : World :=
  {| now := now w; ghl_connections := ghl_connections w;
     location_mappings := location_mappings w;
     mac_mappings := v; vivaspot_sites := vivaspot_sites w;
     synced_contacts := synced_contacts w; sync_log := sync_log w;
     db_faults := db_faults w; fault_log := fault_log w;
     token_endpoint := token_endpoint w; contacts_endpoint := contacts_endpoint w;
     http_calls := http_calls w |}.

Definition with_synced_contacts (v : list SyncedContact) (w : World) : World :=
  {| now := now w; ghl_connections := ghl_connections w;
     location_mappings := location_mappings w;
     mac_mappings := mac_mappings w; vivaspot_sites := vivaspot_sites w;
     synced_contacts := v; sync_log := sync_log w;
     db_faults := db_faults w; fault_log := fault_log w;
     token_endpoint := token_endpoint w; contacts_endpoint := contacts_endpoint w;
     http_calls := http_calls w |}.

Definition with_sync_log (v : list SyncLogRow) (w : World) : World :=
  {| now := now w; ghl_connections := ghl_connections w;
     location_mappings := location_mappings w;
     mac_mappings := mac_mappings w; vivaspot_sites := vivaspot_sites w;
     synced_contacts := synced_contacts w; sync_log := v;
     db_faults := db_faults w; fault_log := fault_log w;
     token_endpoint := token_endpoint w; contacts_endpoint := contacts_endpoint w;
     http_calls := http_calls w |}.

Definition with_faults (v : list (option string)) (l : list (DbOp * string))
           (w : World) : World :=
  {| now := now w; ghl_connections := ghl_connections w;
     location_mappings := location_mappings w;
     mac_mappings := mac_mappings w; vivaspot_sites := vivaspot_sites w;
     synced_contacts := synced_contacts w; sync_log := sync_log w;
     db_faults := v; fault_log := l;
     token_endpoint := token_endpoint w; contacts_endpoint := contacts_endpoint w;
     http_calls := http_calls w |}.

Definition with_token_endpoint (v : list TokenResponse) (c : list HttpExchange)
           (w : World) : World :=
  {| now := now w; ghl_connections := ghl_connections w;
     location_mappings := location_mappings w;
     mac_mappings := mac_mappings w; vivaspot_sites := vivaspot_sites w;
     synced_contacts := synced_contacts w; sync_log := sync_log w;
     db_faults := db_faults w; fault_log := fault_log w;
     token_endpoint := v; contacts_endpoint := contacts_endpoint w;
     http_calls := c |}.

Definition with_contacts_endpoint (v : list ContactResponse) (c : list HttpExchange)
           (w : World) : World :=
  {| now := now w; ghl_connections := ghl_connections w;
     location_mappings := location_mappings w;
     mac_mappings := mac_mappings w; vivaspot_sites := vivaspot_sites w;
     synced_contacts := synced_contacts w; sync_log := sync_log w;
     db_faults := db_faults w; fault_log := fault_log w;
     token_endpoint := token_endpoint w; contacts_endpoint := v;
     http_calls := c |}.

(* ================================================================== *)
(** * Asynchronous functions: state and exceptions *)
(* ================================================================== *)

(** An [async] function either resolves to a value or rejects with an
    [Error]; only the error's [message] is observed by the code. *)
Inductive Outcome (A : Type) : Type :=
| Return (a : A)
| Throw (message : string).

Arguments Return {A} a.
Arguments Throw {A} message.

Definition M (A : Type) : Type := World -> Outcome A * World.

Definition ret {A : Type} (a : A) : M A := fun w => (Return a, w).

Definition throw {A : Type} (message : string) : M A := fun w => (Throw message, w).

Definition bind {A B : Type} (m : M A) (k : A -> M B) : M B :=
  fun w =>
    match m w with
    | (Return a, w') => k a w'
    | (Throw message, w') => (Throw message, w')
    end.

(** [try { m } catch (error) { h error.message }]. *)
Definition try_catch {A : Type} (m : M A) (h : string -> M A) : M A :=
  fun w =>
    match m w with
    | (Return a, w') => (Return a, w')
    | (Throw message, w') => h message w'
    end.

Definition get_world : M World := fun w => (Return w, w).

Definition modify (f : World -> World) : M unit := fun w => (Return tt, f w).

Declare Scope async_scope.
Delimit Scope async_scope with async.
Notation "x <- m ;; k" := (bind m (fun x => k))
  (at level 61, m at next level, right associativity) : async_scope.
Notation "m ;; k" := (bind m (fun _ => k))
  (at level 61, right associativity) : async_scope.
Local Open Scope async_scope.

(** [Date.now()]. *)
Definition date_now : M Z := fun w => (Return (now w), w).

(** [query(text, params)] of db/connection.js, up to the effect of the
    statement on the tables: it rejects when a storage fault is due. *)
Definition query (op : DbOp) : M unit :=
  fun w =>
    match db_faults w with
    | [] => (Return tt, w)
    | None :: rest => (Return tt, with_faults rest (fault_log w) w)
    | Some message :: rest =>
        (Throw message, with_faults rest (fault_log w ++ [(op, message)]) w)
    end.

(* ================================================================== *)
(** * Query helpers (db/queries.js) *)
(* ================================================================== *)

(** [getGHLConnection]: the active connection of a location. *)
Definition getGHLConnection (locationId : string) : M (option Connection) :=
  query OpGetGHLConnection ;;
  w <- get_world ;;
  ret (find (fun gc => String.eqb (ghl_location_id gc) locationId && is_active gc)
            (ghl_connections w)).

Definition set_tokens (accessToken refreshToken : string) (expiresAt : Z)
           (gc : Connection) : Connection :=
  {| ghl_location_id := ghl_location_id gc;
     access_token := accessToken;
     refresh_token := refreshToken;
     token_expires_at := expiresAt;
     is_active := is_active gc |}.

(** The [UPDATE ghl_connections SET ... WHERE ghl_location_id = $1]. *)
Definition update_tokens (locationId accessToken refreshToken : string)
           (expiresAt : Z) (rows : list Connection) : list Connection :=
  map (fun gc =>
         if String.eqb (ghl_location_id gc) locationId
         then set_tokens accessToken refreshToken expiresAt gc
         else gc) rows.

(** [updateGHLTokens]. *)
Definition updateGHLTokens (locationId accessToken refreshToken : string)
           (expiresIn : Z) : M (option Connection) :=
  t <- date_now ;;
  let expiresAt := (t + expiresIn * 1000)%Z in
  query OpUpdateGHLTokens ;;
  modify (fun w =>
            with_ghl_connections
              (update_tokens locationId accessToken refreshToken expiresAt
                             (ghl_connections w)) w) ;;
  w <- get_world ;;
  ret (find (fun gc => String.eqb (ghl_location_id gc) locationId)
            (ghl_connections w)).

(** The normalization of [addLocationMapping] and [getLocationByMAC]:
    [mac.toUpperCase().replace(/-/g, ':')]. *)
Definition normalizeLocationMac (mac : string) : string :=
  replace_hyphens (toUpperCase mac).

(** [addLocationMapping]: insert, or on a conflict on
    (ghl_location_id, vivaspot_mac) update the location name. *)
Definition addLocationMapping (locationId mac locationName : string)
  : M LocationMapping :=
  let normalizedMac := normalizeLocationMac mac in
  let row := {| lm_location_id := locationId; vivaspot_mac := normalizedMac;
                vivaspot_location := locationName |} in
  let same lm := String.eqb (lm_location_id lm) locationId
                 && String.eqb (vivaspot_mac lm) normalizedMac in
  query OpAddLocationMapping ;;
  modify (fun w =>
            if existsb same (location_mappings w)
            then with_location_mappings
                   (map (fun lm => if same lm then row else lm) (location_mappings w)) w
            else with_location_mappings (location_mappings w ++ [row]) w) ;;
  ret row.

(** A row of [location_mappings JOIN ghl_connections]: all columns of the
    mapping and the token columns of its connection.  The rows of a query
    without [ORDER BY] are taken in table order. *)
Record MappingRow : Type := {
  mapping : LocationMapping;
  connection : Connection
}.

Definition join_active_connections (w : World) (normalizedMac : string)
  : list MappingRow :=
  flat_map
    (fun lm =>
       map (fun gc => {| mapping := lm; connection := gc |})
           (filter (fun gc => String.eqb (lm_location_id lm) (ghl_location_id gc)
                              && is_active gc)
                   (ghl_connections w)))
    (filter (fun lm => String.eqb (vivaspot_mac lm) normalizedMac)
            (location_mappings w)).

(** [getLocationByMAC]: [rows[0]] of the join, [undefined] when empty. *)
Definition getLocationByMAC (mac : string) : M (option MappingRow) :=
  let normalizedMac := normalizeLocationMac mac in
  query OpGetLocationByMAC ;;
  w <- get_world ;;
  ret (hd_error (join_active_connections w normalizedMac)).

(** The normalization of [createMacMappingsWithTag] and
    [getMacMappingWithTag]: [mac.toLowerCase().trim()]. *)
Definition normalizeMappingMac (mac : string) : string :=
  trim (toLowerCase mac).

Definition retarget (locationId : string) (sourceRestaurant sourceTag : option string)
           (normalizedMac : string) (row : MacMapping) : MacMapping :=
  if String.eqb (mac_address row) normalizedMac
  then {| mac_address := mac_address row; mm_location_id := locationId;
          source_restaurant := sourceRestaurant; source_tag := sourceTag |}
  else row.

(** The body of the [for (const mac of macAddresses)] loop of
    [createMacMappingsWithTag], with the counter [created]. *)
Fixpoint mapEachMac (locationId : string) (sourceRestaurant sourceTag : option string)
         (macAddresses : list string) (created : nat) : M nat :=
  match macAddresses with
  | [] => ret created
  | mac :: rest =>
      let normalizedMac := normalizeMappingMac mac in
      if String.eqb normalizedMac "" || (String.length normalizedMac <? 11)%nat
      then mapEachMac locationId sourceRestaurant sourceTag rest created
      else
        query OpSelectMacMapping ;;
        w <- get_world ;;
        (if existsb (fun row => String.eqb (mac_address row) normalizedMac)
                    (mac_mappings w)
         then
           query OpUpdateMacMapping ;;
           modify (fun w =>
                     with_mac_mappings
                       (map (retarget locationId sourceRestaurant sourceTag normalizedMac)
                            (mac_mappings w)) w)
         else
           query OpInsertMacMapping ;;
           modify (fun w =>
                     with_mac_mappings
                       (mac_mappings w ++
                          [{| mac_address := normalizedMac; mm_location_id := locationId;
                              source_restaurant := sourceRestaurant;
                              source_tag := sourceTag |}]) w)) ;;
        mapEachMac locationId sourceRestaurant sourceTag rest (S created)
  end.

(** [createMacMappingsWithTag]. *)
Definition createMacMappingsWithTag (locationId : string) (macAddresses : list string)
           (sourceRestaurant sourceTag : option string) : M nat :=
  match macAddresses with
  | [] => ret 0%nat
  | _ => mapEachMac locationId sourceRestaurant sourceTag macAddresses 0
  end.

(** [createMacMappings]. *)
Definition createMacMappings (locationId : string) (macAddresses : list string) : M nat :=
  createMacMappingsWithTag locationId macAddresses None None.

(** [getMacMappingWithTag]: [rows[0] || null]. *)
Definition getMacMappingWithTag (macAddress : string) : M (option MacMapping) :=
  query OpGetMacMappingWithTag ;;
  w <- get_world ;;
  ret (find (fun row => String.eqb (mac_address row) (normalizeMappingMac macAddress))
            (mac_mappings w)).

Definition marker_matches (locationId email : string) (row : SyncedContact) : bool :=
  String.eqb (sc_location_id row) locationId && String.eqb (contact_email row) email.

(** [isContactSynced]. *)
Definition isContactSynced (locationId email : string) : M bool :=
  query OpIsContactSynced ;;
  w <- get_world ;;
  ret (0 <? List.length (filter (marker_matches locationId (toLowerCase email))
                                (synced_contacts w)))%nat.

(** [recordSyncedContact]: [INSERT ... ON CONFLICT (ghl_location_id,
    contact_email) DO NOTHING]. *)
Definition recordSyncedContact (locationId email ghlContactId : string) : M unit :=
  query OpRecordSyncedContact ;;
  modify (fun w =>
            if existsb (marker_matches locationId (toLowerCase email)) (synced_contacts w)
            then w
            else with_synced_contacts
                   (synced_contacts w ++
                      [{| sc_location_id := locationId;
                          contact_email := toLowerCase email;
                          sc_contact_id := ghlContactId |}]) w).

(** [logSync]. *)
Definition logSync (locationId mac email : string) (status : Status)
           (ghlContactId errorMessage : option string) : M unit :=
  query (OpLogSync status) ;;
  modify (fun w =>
            with_sync_log
              (sync_log w ++
                 [{| sl_location_id := locationId; sl_mac := mac; sl_email := email;
                     sl_status := status; sl_contact_id := ghlContactId;
                     sl_error_message := errorMessage |}]) w).

(* ================================================================== *)
(** * The CRM client (services/ghl.js) *)
(* ================================================================== *)

(** The answer to the next request to the token endpoint. *)
Definition next_token_response (w : World) : TokenResponse :=
  hd (TokenNetworkError "fetch failed") (token_endpoint w).

(** [refreshAccessToken]: one POST to the token endpoint. *)
Definition refreshAccessToken (refreshToken : string) : M (string * string * Z) :=
  fun w =>
    let response := next_token_response w in
    let w' := with_token_endpoint (tl (token_endpoint w))
                (http_calls w ++ [RefreshExchange refreshToken response]) w in
    match response with
    | TokenOk a r e => (Return (a, r, e), w')
    | TokenRejected text => (Throw ("Token refresh failed: " ++ text), w')
    | TokenNetworkError message => (Throw message, w')
    end.

(** [5 * 60 * 1000]. *)
Definition refresh_window : Z := 5 * 60 * 1000.

(** [ensureValidToken]. *)
Definition ensureValidToken (gc : Connection) : M string :=
  let expiresAt := token_expires_at gc in
  t <- date_now ;;
  let fiveMinutesFromNow := (t + refresh_window)%Z in
  if (fiveMinutesFromNow <? expiresAt)%Z then ret (access_token gc)
  else
    newTokens <- refreshAccessToken (refresh_token gc) ;;
    let '(accessToken, refreshToken, expiresIn) := newTokens in
    updateGHLTokens (ghl_location_id gc) accessToken refreshToken expiresIn ;;
    ret accessToken.

(** A field that is only written when it has a value. *)
Definition if_value (s : option string) : option string :=
  if present s then s else None.

(** The answer to the next request to the contacts endpoint. *)
Definition next_contact_response (w : World) : ContactResponse :=
  hd (ContactNetworkError "fetch failed") (contacts_endpoint w).

(** [createContact]: one POST to the contacts endpoint; resolves to the
    [id] of [data.contact]. *)
Definition createContact (accessToken locationId email : string)
           (firstName lastName : string) (phone : option string)
           (source : string) (tags : list string) : M string :=
  fun w =>
    let body := {| body_locationId := locationId; body_email := email;
                   body_source := source; body_tags := tags;
                   body_firstName := if_value (Some firstName);
                   body_lastName := if_value (Some lastName);
                   body_phone := if_value phone |} in
    let response := next_contact_response w in
    let w' := with_contacts_endpoint (tl (contacts_endpoint w))
                (http_calls w ++ [ContactExchange accessToken body response]) w in
    match response with
    | ContactCreated id => (Return id, w')
    | ContactRejected httpStatus text =>
        (Throw ("Create contact failed: " ++ of_Z httpStatus ++ " - " ++ text), w')
    | ContactNetworkError message => (Throw message, w')
    end.

(* ================================================================== *)
(** * The sync pipeline (services/sync.js) *)
(* ================================================================== *)

(** The inbound event; a field is [None] when it is absent. *)
Record Contact : Type := {
  mac : option string;
  email : option string;
  name : option string;
  phone : option string;
  opt_in : JsValue
}.

Record SyncResult : Type := {
  status : Status;
  reason : option string;
  ghl_contact_id : option string;
  result_location_id : option string
}.

Definition failed (status : Status) (reason : string) : SyncResult :=
  {| status := status; reason := Some reason;
     ghl_contact_id := None; result_location_id := None |}.

Definition synced (contactId locationId : string) : SyncResult :=
  {| status := Success; reason := None;
     ghl_contact_id := Some contactId; result_location_id := Some locationId |}.

(** The text of a field known to be truthy. *)
Definition text (s : option string) : string :=
  match s with Some s => s | None => "" end.

(** [processContact]. *)
Definition processContact (contact : Contact) : M SyncResult :=
  if negb (present (mac contact)) then ret (failed Error "Missing MAC address")
  else if negb (present (email contact)) then ret (failed Error "Missing email address")
  else if negb (isOptedIn (opt_in contact)) then ret (failed Skipped "Not opted in")
  else
    let mac := text (mac contact) in
    let email := text (email contact) in
    row <- getLocationByMAC mac ;;
    match row with
    | None => ret (failed Skipped "No GHL mapping for this MAC address")
    | Some row =>
        let locationId := lm_location_id (mapping row) in
        alreadySynced <- isContactSynced locationId email ;;
        if alreadySynced : bool then ret (failed Skipped "Already synced")
        else
          try_catch
            (accessToken <- ensureValidToken (connection row) ;;
             let '(firstName, lastName) := parseName (name contact) in
             ghlContactId <- createContact accessToken locationId email
                                           firstName lastName (phone contact)
                                           "VivaSpot WiFi" ["vivaspot-wifi"] ;;
             recordSyncedContact locationId email ghlContactId ;;
             logSync locationId mac email Success (Some ghlContactId) None ;;
             ret (synced ghlContactId locationId))
            (fun message =>
               logSync locationId mac email Error None (Some message) ;;
               ret (failed Error message))
    end.

(* ================================================================== *)
(** * Manual setup (routes/setup.js, POST /setup/:locationId/save) *)
(* ================================================================== *)

Inductive SetupResponse : Type :=
| SetupBadRequest (error : string)
| SetupNotFound (error : string)
| SetupSaved (mapped : nat)
| SetupServerError (error : string).

(** The loop that sorts the submitted addresses into normalized and
    invalid ones. *)
Fixpoint normalizeAll (macAddresses : list string) : list string * list string :=
  match macAddresses with
  | [] => ([], [])
  | mac :: rest =>
      let '(normalizedMacs, invalidMacs) := normalizeAll rest in
      match normalizeMacAddress mac with
      | Some normalized => (normalized :: normalizedMacs, invalidMacs)
      | None => (normalizedMacs, mac :: invalidMacs)
      end
  end.

Definition setupSave (locationId : string) (macAddresses : list string)
  : M SetupResponse :=
  if String.eqb locationId "" then ret (SetupBadRequest "Missing location ID")
  else
    match macAddresses with
    | [] => ret (SetupBadRequest "No MAC addresses provided")
    | _ =>
        let '(normalizedMacs, invalidMacs) := normalizeAll macAddresses in
        match invalidMacs with
        | _ :: _ =>
            ret (SetupBadRequest
                   ("Invalid MAC address format: " ++ String.concat ", " invalidMacs))
        | [] =>
            try_catch
              (gc <- getGHLConnection locationId ;;
               match gc with
               | None =>
                   ret (SetupNotFound
                          "GHL location not found. Please complete OAuth first.")
               | Some _ =>
                   mapped <- createMacMappings locationId normalizedMacs ;;
                   ret (SetupSaved mapped)
               end)
              (fun message => ret (SetupServerError message))
        end
    end.

(* ================================================================== *)
(** * The site matcher (db/queries.js, findVivaSpotMatch) *)
(* ================================================================== *)

(** ** SQL [LIKE]

    [%] matches any run of characters, [_] any one character, and a
    backslash quotes the character after it.  A pattern that ends in a lone
    backslash is refused by PostgreSQL when the match gets that far; here
    it matches nothing. *)
Inductive LikeToken : Type :=
| LikeAny
| LikeOne
| LikeChar (c : ascii)
| LikeDangling.

Fixpoint like_tokens (pattern : string) : list LikeToken :=
  match pattern with
  | EmptyString => []
  | String c rest =>
      if Ascii.eqb c "%" then LikeAny :: like_tokens rest
      else if Ascii.eqb c "_" then LikeOne :: like_tokens rest
      else if Ascii.eqb c "\" then
        match rest with
        | EmptyString => [LikeDangling]
        | String d rest' => LikeChar d :: like_tokens rest'
        end
      else LikeChar c :: like_tokens rest
  end.

Fixpoint like_match (pattern : list LikeToken) (s : string) : bool :=
  match pattern with
  | [] => String.eqb s EmptyString
  | LikeAny :: pattern' =>
      (fix skip (s : string) : bool :=
         like_match pattern' s
         || match s with
            | EmptyString => false
            | String _ s' => skip s'
            end) s
  | LikeOne :: pattern' =>
      match s with
      | EmptyString => false
      | String _ s' => like_match pattern' s'
      end
  | LikeChar c :: pattern' =>
      match s with
      | EmptyString => false
      | String d s' => Ascii.eqb c d && like_match pattern' s'
      end
  | LikeDangling :: _ => false
  end.

(** [s LIKE pattern]. *)
Definition sql_like (s pattern : string) : bool :=
  like_match (like_tokens pattern) s.

(** [$1 = ANY(merchant_emails)]. *)
Definition owned_by (normalizedEmail : string) (site : Site) : bool :=
  existsb (String.eqb normalizedEmail) (merchant_emails site).

(** [ORDER BY restaurant_name], the names compared character by character. *)
Fixpoint insert_by_name (site : Site) (rows : list Site) : list Site :=
  match rows with
  | [] => [site]
  | row :: rows' =>
      if String.leb (restaurant_name site) (restaurant_name row)
      then site :: rows
      else row :: insert_by_name site rows'
  end.

Definition order_by_name (rows : list Site) : list Site :=
  fold_right insert_by_name [] rows.

(** The [WHERE] clause of strategy 1; a [NULL] group never matches. *)
Definition group_row (normalizedEmail normalizedName : string) (site : Site) : bool :=
  owned_by normalizedEmail site
  && match hospitality_group site with
     | Some group => sql_like (toLowerCase group) ("%" ++ normalizedName ++ "%")
     | None => false
     end.

(** The [WHERE] clause of strategy 2. *)
Definition name_row (normalizedEmail normalizedName : string) (site : Site) : bool :=
  let lowered := toLowerCase (restaurant_name site) in
  owned_by normalizedEmail site
  && (String.eqb lowered normalizedName
      || sql_like lowered ("%" ++ normalizedName ++ "%")
      || sql_like normalizedName ("%" ++ lowered ++ "%")
      || sql_like lowered ("%" ++ before_space normalizedName ++ "%")).

(** [s.split(/[\s\-]+/).filter(w => w.length > 2)]. *)
Definition long_words (s : string) : list string :=
  filter (fun w => (2 <? String.length w)%nat)
         (split_on (fun c => is_space c || Ascii.eqb c "-") s).

(** The words of the location name that overlap a word of the site name. *)
Definition matchingWords (normalizedName : string) (site : Site) : list string :=
  let siteName := toLowerCase (restaurant_name site) in
  let nameWords := long_words normalizedName in
  let siteWords := long_words siteName in
  filter (fun word => existsb (fun sw => includes sw word || includes word sw) siteWords)
         nameWords.

Inductive MatchResult : Type :=
| MatchGroup (groupName : option string) (sites : list Site)
| MatchSingle (site : Site)
| MatchNone.

(** Strategies 2 to 4 of [findVivaSpotMatch]. *)
Definition matchSingleSite (normalizedEmail normalizedName : string) : M MatchResult :=
  query OpFindByName ;;
  w <- get_world ;;
  match filter (name_row normalizedEmail normalizedName) (vivaspot_sites w) with
  | site :: _ => ret (MatchSingle site)
  | [] =>
      query OpFindByEmail ;;
      w <- get_world ;;
      match filter (owned_by normalizedEmail) (vivaspot_sites w) with
      | [site] => ret (MatchSingle site)
      | rows =>
          match find (fun site =>
                        (1 <=? List.length (matchingWords normalizedName site))%nat)
                     rows with
          | Some site => ret (MatchSingle site)
          | None => ret MatchNone
          end
      end
  end.

(** [findVivaSpotMatch]. *)
Definition findVivaSpotMatch (email locationName : string) : M MatchResult :=
  let normalizedEmail := trim (toLowerCase email) in
  let normalizedName := trim (toLowerCase locationName) in
  query OpFindGroup ;;
  w <- get_world ;;
  let groupRows :=
    order_by_name (filter (group_row normalizedEmail normalizedName) (vivaspot_sites w)) in
  match groupRows with
  | first :: _ :: _ => ret (MatchGroup (hospitality_group first) groupRows)
  | _ => matchSingleSite normalizedEmail normalizedName
  end.

(* ================================================================== *)
(** * Notions used to state the properties *)
(* ================================================================== *)

(** Removal of the separators, the first step of [normalizeMacAddress]. *)
Definition strip_separators (s : string) : string :=
  filter_chars (fun c => negb (is_mac_separator c)) s.

(** Equality of strings up to letter case. *)
Definition same_ignoring_case (s t : string) : Prop :=
  toLowerCase s = toLowerCase t.

(** The opt-in values that count as consent. *)
Definition affirmative (v : JsValue) : Prop :=
  v = JsBoolean true
  \/ (exists s, v = JsStr s
                /\ (same_ignoring_case s "yes" \/ same_ignoring_case s "true"
                    \/ same_ignoring_case s "1"))
  \/ (exists items, v = JsArray items /\ items <> [])
  \/ (exists fields, v = JsObject fields
                     /\ exists key x, In (key, x) fields /\ truthy x = true).


(** The requests made between two worlds of one run. *)
Definition exchanges_since (w w' : World) : list HttpExchange :=
  skipn (List.length (http_calls w)) (http_calls w').


Definition is_refresh (e : HttpExchange) : Prop :=
  match e with
  | RefreshExchange _ _ => True
  | ContactExchange _ _ _ => False
  end.

(** The tenant a device identifier resolves to on the sync path. *)
Definition resolve (w : World) (mac : string) : option string :=
  option_map (fun row => lm_location_id (mapping row))
             (hd_error (join_active_connections w (normalizeLocationMac mac))).

(** The number of Synced-Contact Markers of a tenant and an email. *)
Definition marker_count (locationId email : string) (w : World) : nat :=
  List.length (filter (marker_matches locationId (toLowerCase email))
                      (synced_contacts w)).




(** Every success entry of the ledger has its marker. *)
Definition marked_successes (w : World) : Prop :=
  forall row,
    In row (sync_log w) ->
    sl_status row = Success ->
    existsb (marker_matches (sl_location_id row) (toLowerCase (sl_email row)))
            (synced_contacts w) = true.

(* ------------------------------------------------------------------ *)
(** ** Sample data *)

Definition guest_without_consent : Contact :=
  {| mac := Some "00:18:0a:27:29:76"; email := Some "g@x.com";
     name := Some "Gil Guest"; phone := None; opt_in := JsStr "no" |}.

Definition empty_world : World :=
  {| now := 0; ghl_connections := []; location_mappings := []; mac_mappings := [];
     vivaspot_sites := []; synced_contacts := []; sync_log := [];
     db_faults := []; fault_log := []; token_endpoint := [];
     contacts_endpoint := []; http_calls := [] |}.

(** A connection whose token the credential manager has to renew. *)
Definition expiring_connection : Connection :=
  {| ghl_location_id := "loc1"; access_token := "old-access";
     refresh_token := "old-refresh"; token_expires_at := 120000; is_active := true |}.

(** A world, at time 0, in which the CRM is ready to renew that token and
    then to create a contact. *)
Definition renewing_world : World :=
  {| now := 0; ghl_connections := [expiring_connection];
     location_mappings :=
       [{| lm_location_id := "loc1"; vivaspot_mac := "00:18:0A:27:29:76";
           vivaspot_location := "Lobby" |}];
     mac_mappings := []; vivaspot_sites := []; synced_contacts := []; sync_log := [];
     db_faults := []; fault_log := [];
     token_endpoint := [TokenOk "new-access" "new-refresh" 3600];
     contacts_endpoint := [ContactCreated "contact-1"]; http_calls := [] |}.

Definition willing_guest : Contact :=
  {| mac := Some "00-18-0A-27-29-76"; email := Some "Gil@X.com";
     name := Some "Gil Guest"; phone := None; opt_in := JsStr "Yes" |}.

(** The same guest again, the fields spelled differently. *)
Definition returning_guest : Contact :=
  {| mac := Some "00:18:0a:27:29:76"; email := Some "Gil@X.com";
     name := Some "Gil Guest"; phone := Some "+15551234567"; opt_in := JsBoolean true |}.


(* ------------------------------------------------------------------ *)
(** ** Bulk mapping, table level *)

(** An entry that [createMacMappingsWithTag] does not skip. *)
Definition accepted (mac : string) : bool :=
  let normalizedMac := normalizeMappingMac mac in
  negb (String.eqb normalizedMac "" || (String.length normalizedMac <? 11)%nat).

Definition mapped_row (locationId : string) (sourceRestaurant sourceTag : option string)
           (normalizedMac : string) : MacMapping :=
  {| mac_address := normalizedMac; mm_location_id := locationId;
     source_restaurant := sourceRestaurant; source_tag := sourceTag |}.

(** The effect of one round of the loop on [mac_mappings]. *)
Definition upsert (locationId : string) (sourceRestaurant sourceTag : option string)
           (table : list MacMapping) (normalizedMac : string) : list MacMapping :=
  if existsb (fun row => String.eqb (mac_address row) normalizedMac) table
  then map (retarget locationId sourceRestaurant sourceTag normalizedMac) table
  else table ++ [mapped_row locationId sourceRestaurant sourceTag normalizedMac].

(** The rows of [mac_mappings] for a device. *)
Definition rows_for (normalizedMac : string) (table : list MacMapping) : list MacMapping :=
  filter (fun row => String.eqb (mac_address row) normalizedMac) table.

(** [mac_address] is a key of [mac_mappings]. *)
Definition unique_macs (table : list MacMapping) : Prop :=
  NoDup (map mac_address table).

Definition mapping_world (faults : list (option string)) : World :=
  {| now := 0; ghl_connections := [expiring_connection]; location_mappings := [];
     mac_mappings := []; vivaspot_sites := []; synced_contacts := []; sync_log := [];
     db_faults := faults; fault_log := []; token_endpoint := [];
     contacts_endpoint := []; http_calls := [] |}.

(* ------------------------------------------------------------------ *)
(** ** Site matching *)






Definition is_group (result : MatchResult) : bool :=
  match result with
  | MatchGroup _ _ => true
  | _ => false
  end.

Definition acme (id : Z) (venue owner : string) : Site :=
  {| site_id := id; restaurant_name := venue; hospitality_group := Some "Acme Group";
     merchant_emails := [owner]; mac_addresses := [] |}.

Definition directory (sites : list Site) : World :=
  {| now := 0; ghl_connections := []; location_mappings := []; mac_mappings := [];
     vivaspot_sites := sites; synced_contacts := []; sync_log := [];
     db_faults := []; fault_log := []; token_endpoint := [];
     contacts_endpoint := []; http_calls := [] |}.

(* ------------------------------------------------------------------ *)
(** ** Onboarding followed by a sync lookup *)

(** A device entered on the setup page in one of the spellings the page
    lists as accepted. *)
Definition entered_mac : string := "00-18-0A-27-29-76".

(** The world after the manual setup of that device for location "loc1". *)
Definition onboarded_world : World :=
  snd (setupSave "loc1" [entered_mac] (mapping_world [])).

Definition event_from_device (mac : string) : Contact :=
  {| mac := Some mac; email := Some "g@x.com"; name := None; phone := None;
     opt_in := JsBoolean true |}.

(* ================================================================== *)
(** * More of the query helpers (db/queries.js) *)
(* ================================================================== *)


(** [query] for the helpers of this part: a storage fault that is due
    rejects the query.  The fault log, which names the helpers of the sync
    path, is left alone. *)
Definition run_query : M unit :=
  fun w =>
    match db_faults w with
    | [] => (Return tt, w)
    | None :: rest => (Return tt, with_faults rest (fault_log w) w)
    | Some message :: rest => (Throw message, with_faults rest (fault_log w) w)
    end.



Definition deactivate (locationId : string) (gc : Connection) : Connection :=
  if String.eqb (ghl_location_id gc) locationId
  then {| ghl_location_id := ghl_location_id gc; access_token := access_token gc;
          refresh_token := refresh_token gc; token_expires_at := token_expires_at gc;
          is_active := false |}
  else gc.

(** [deactivateGHLConnection]. *)
Definition deactivateGHLConnection (locationId : string) : M unit :=
  run_query ;;
  modify (fun w => with_ghl_connections (map (deactivate locationId) (ghl_connections w)) w).

(** [s.replace(/[&]/g, 'and')]. *)
Fixpoint spell_ampersands (s : string) : string :=
  match s with
  | EmptyString => EmptyString
  | String c s' =>
      if Ascii.eqb c "&" then String "a" (String "n" (String "d" (spell_ampersands s')))
      else String c (spell_ampersands s')
  end.

(** [s.replace(/\s+/g, '_')]. *)
Fixpoint underscore_runs (in_run : bool) (s : string) : string :=
  match s with
  | EmptyString => EmptyString
  | String c s' =>
      if is_space c then
        if in_run then underscore_runs true s'
        else String "_" (underscore_runs true s')
      else String c (underscore_runs false s')
  end.

(** The character class [[a-zA-Z0-9\s]]. *)
Definition is_name_char (c : ascii) : bool :=
  is_lower c || is_upper c || is_digit c || is_space c.

(** [nameToTag]. *)
Definition nameToTag (name : string) : string :=
  let without_apostrophes := filter_chars (fun c => negb (Ascii.eqb c "'")) name in
  let spelled := spell_ampersands without_apostrophes in
  let plain := filter_chars is_name_char spelled in
  underscore_runs false (trim plain).





(** [findVivaSpotSiteByEmailAndName]. *)
Definition findVivaSpotSiteByEmailAndName (email locationName : string)
  : M (option Site) :=
  found <- findVivaSpotMatch email locationName ;;
  match found with
  | MatchSingle site => ret (Some site)
  | MatchGroup _ sites => ret (hd_error sites)
  | MatchNone => ret None
  end.

(** [getSyncLogs]: the entries of a location, newest first, at most [limit]
    of them.  The ledger keeps its rows in the order they were written,
    which is the order of [synced_at]; PostgreSQL refuses a negative
    [LIMIT]. *)
Definition getSyncLogs (locationId : string) (limit : Z) : M (list SyncLogRow) :=
  run_query ;;
  if (limit <? 0)%Z then throw "LIMIT must not be negative"
  else
    w <- get_world ;;
    ret (firstn (Z.to_nat limit)
                (List.rev (filter (fun row => String.eqb (sl_location_id row) locationId)
                                  (sync_log w)))).

(* ================================================================== *)
(** * The webhook routes (routes/webhook.js) *)
(* ================================================================== *)

(** The body of [POST /webhook/contact]. *)
Record WebhookBody : Type := {
  wb_mac : option string;
  wb_email : option string;
  wb_name : option string;
  wb_phone : option string;
  wb_opt_in : JsValue;
  wb_mobile : option string
}.

(** What a route answers: the result with the time taken, or status 500
    with the message of the error. *)
Inductive WebhookResponse : Type :=
| WebhookResult (result : SyncResult) (processing_time_ms : Z)
| WebhookFailure (reason : string).

(** [phone || mobile]. *)
Definition phone_or_mobile (phone mobile : option string) : option string :=
  if present phone then phone else mobile.

(** [POST /webhook/contact]. *)
Definition webhookContact (body : WebhookBody) : M WebhookResponse :=
  startTime <- date_now ;;
  try_catch
    (result <- processContact
                 {| mac := wb_mac body; email := wb_email body; name := wb_name body;
                    phone := phone_or_mobile (wb_phone body) (wb_mobile body);
                    opt_in := wb_opt_in body |} ;;
     t <- date_now ;;
     ret (WebhookResult result (t - startTime)))
    (fun message => ret (WebhookFailure message)).








Inductive UninstallResponse : Type :=
| UninstallDone
| UninstallFailure (error : string).

(** [POST /webhook/ghl/uninstall]. *)
Definition webhookUninstall (locationId : option string) : M UninstallResponse :=
  try_catch
    ((if present locationId then deactivateGHLConnection (text locationId)
      else ret tt) ;;
     ret UninstallDone)
    (fun message => ret (UninstallFailure message)).

(* ================================================================== *)
(** * The API routes (routes/api.js) *)
(* ================================================================== *)

(** The character class [[0-9A-Fa-f]]. *)
Definition is_hex (c : ascii) : bool :=
  is_digit c || in_range 65 70 c || in_range 97 102 c.

(** [([0-9A-Fa-f]{2}[:-]){n}([0-9A-Fa-f]{2})$]. *)
Fixpoint mac_groups (n : nat) (s : string) : bool :=
  match n with
  | O =>
      match s with
      | String a (String b EmptyString) => is_hex a && is_hex b
      | _ => false
      end
  | S n' =>
      match s with
      | String a (String b (String c rest)) =>
          is_hex a && is_hex b && (Ascii.eqb c ":" || Ascii.eqb c "-")
          && mac_groups n' rest
      | _ => false
      end
  end.

(** [macRegex.test(mac)], for
    [/^([0-9A-Fa-f]{2}[:-]){5}([0-9A-Fa-f]{2})$/]. *)
Definition macRegex (mac : string) : bool := mac_groups 5 mac.

Inductive MappingResponse : Type :=
| MappingBadRequest (error : string)
| MappingNotFound (error : string)
| MappingAdded (row : LocationMapping)
| MappingFailure (error : string).

(** [POST /api/mappings]. *)
Definition apiAddMapping (location_id mac name : option string) : M MappingResponse :=
  try_catch
    (if negb (present location_id) then ret (MappingBadRequest "Missing location_id")
     else if negb (present mac) then ret (MappingBadRequest "Missing mac address")
     else if negb (macRegex (text mac))
     then ret (MappingBadRequest
                 "Invalid MAC address format. Use format: AA:BB:CC:DD:EE:FF")
     else
       gc <- getGHLConnection (text location_id) ;;
       match gc with
       | None =>
           ret (MappingNotFound "GHL location not found. Please complete OAuth first.")
       | Some _ =>
           row <- addLocationMapping (text location_id) (text mac)
                                     (if present name then text name else "") ;;
           ret (MappingAdded row)
       end)
    (fun message => ret (MappingFailure message)).

Record SyncStats : Type := {
  stats_total : nat;
  stats_success : nat;
  stats_skipped : nat;
  stats_errors : nat
}.

Definition row_has_status (s : Status) (row : SyncLogRow) : bool :=
  match s, sl_status row with
  | Success, Success | Skipped, Skipped | Error, Error => true
  | _, _ => false
  end.

Inductive SyncStatusResponse : Type :=
| SyncStatus (stats : SyncStats) (recent_logs : list SyncLogRow)
| SyncStatusFailure (error : string).

(** [GET /api/sync-status/:locationId]; [limit] is what [parseInt] makes of
    the query parameter, [None] for [NaN]. *)
Definition apiSyncStatus (locationId : string) (limit : option Z) : M SyncStatusResponse :=
  try_catch
    (let limit := match limit with
                  | Some n => if (n =? 0)%Z then 50%Z else n
                  | None => 50%Z
                  end in
     logs <- getSyncLogs locationId limit ;;
     ret (SyncStatus
            {| stats_total := List.length logs;
               stats_success := List.length (filter (row_has_status Success) logs);
               stats_skipped := List.length (filter (row_has_status Skipped) logs);
               stats_errors := List.length (filter (row_has_status Error) logs) |}
            logs))
    (fun message => ret (SyncStatusFailure message)).

(** [POST /oauth/refresh] (routes/oauth.js). *)
Inductive RefreshResponse : Type :=
| RefreshBadRequest (error : string)
| RefreshNotFound (error : string)
| RefreshDone
| RefreshFailure (error : string).

Definition oauthRefresh (location_id : option string) : M RefreshResponse :=
  if negb (present location_id) then ret (RefreshBadRequest "Missing location_id")
  else
    try_catch
      (gc <- getGHLConnection (text location_id) ;;
       match gc with
       | None => ret (RefreshNotFound "Connection not found")
       | Some gc =>
           newTokens <- refreshAccessToken (refresh_token gc) ;;
           let '(accessToken, refreshToken, expiresIn) := newTokens in
           updateGHLTokens (text location_id) accessToken refreshToken expiresIn ;;
           ret RefreshDone
       end)
      (fun message => ret (RefreshFailure message)).

(* ================================================================== *)
(** * The sync service with venue tags (the updated services/sync.js) *)
(* ================================================================== *)

(** [checkOptIn]. *)
Definition checkOptIn (opt_in : JsValue) : bool :=
  match opt_in with
  | JsBoolean b => b
  | JsStr s => String.eqb s "true" || String.eqb s "Yes" || String.eqb s "yes"
  | JsArray items => (0 <? List.length items)%nat
  | _ => false
  end.

(** The result of the updated [processContact]; [tags_applied] is present
    on success only. *)
Record TaggedResult : Type := {
  outcome : SyncResult;
  tags_applied : option (list string)
}.

Definition untagged (status : Status) (reason : string) : TaggedResult :=
  {| outcome := failed status reason; tags_applied := None |}.

(** The updated [processContact].  [createGHLContact] resolves to
    [data.contact], so [result.contact?.id] is [undefined]: the result does
    not name the contact. *)
Definition processContactWithTags (contact : Contact) : M TaggedResult :=
  if negb (present (mac contact)) then ret (untagged Error "Missing MAC address")
  else if negb (present (email contact)) then ret (untagged Error "Missing email")
  else if negb (checkOptIn (opt_in contact)) then ret (untagged Skipped "Not opted in")
  else
    let mac := text (mac contact) in
    let email := text (email contact) in
    row <- getMacMappingWithTag mac ;;
    match row with
    | None => ret (untagged Error "MAC address not mapped to any GHL location")
    | Some row =>
        gc <- getGHLConnection (mm_location_id row) ;;
        match gc with
        | None => ret (untagged Error "No GHL connection for this location")
        | Some gc =>
            if negb (is_active gc) then ret (untagged Error "GHL connection is inactive")
            else
              let tags :=
                ["Vivaspot-WiFi"]
                  ++ (if present (source_tag row) then [text (source_tag row)] else []) in
              let '(firstName, lastName) := parseName (name contact) in
              try_catch
                (createContact (access_token gc) (mm_location_id row) email
                               firstName lastName (phone contact)
                               "VivaSpot WiFi" tags ;;
                 ret {| outcome :=
                          {| status := Success; reason := None; ghl_contact_id := None;
                             result_location_id := Some (mm_location_id row) |};
                        tags_applied := Some tags |})
                (fun message => ret (untagged Error message))
        end
    end.

(* ================================================================== *)
(** * The venue directory for manual selection (db/queries.js) *)
(* ================================================================== *)

(** A row of [getVivaSpotSitesByEmail].  The column [address], which no
    helper reads, is not kept.  [array_length(mac_addresses, 1)] is [NULL]
    for an array without elements. *)
Record SiteSummary : Type := {
  ss_id : Z;
  ss_restaurant_name : string;
  ss_hospitality_group : option string;
  mac_count : option nat
}.

Definition summary_of (site : Site) : SiteSummary :=
  {| ss_id := site_id site;
     ss_restaurant_name := restaurant_name site;
     ss_hospitality_group := hospitality_group site;
     mac_count := match mac_addresses site with
                  | [] => None
                  | macs => Some (List.length macs)
                  end |}.

(** [getVivaSpotSitesByEmail]. *)
Definition getVivaSpotSitesByEmail (email : string) : M (list SiteSummary) :=
  run_query ;;
  w <- get_world ;;
  ret (map summary_of
           (order_by_name (filter (owned_by (trim (toLowerCase email)))
                                  (vivaspot_sites w)))).

(** [getVivaSpotSiteMacs]: [rows[0]?.mac_addresses || []]. *)
Definition getVivaSpotSiteMacs (siteId : Z) : M (list string) :=
  run_query ;;
  w <- get_world ;;
  ret (match find (fun site => (site_id site =? siteId)%Z) (vivaspot_sites w) with
       | Some site => mac_addresses site
       | None => []
       end).

(* ================================================================== *)
(** * Notions used to state further properties *)
(* ================================================================== *)

(** The first character of the string satisfies [p]. *)
Definition first_is (p : ascii -> bool) (s : string) : bool :=
  match s with
  | EmptyString => false
  | String c _ => p c
  end.

(** The last character of the string satisfies [p]. *)
Definition last_is (p : ascii -> bool) (s : string) : bool := first_is p (rev s).

Definition not_space (c : ascii) : bool := negb (is_space c).

(** The characters of a tag: letters, digits and the underscore. *)
Definition is_tag_char (c : ascii) : bool :=
  is_lower c || is_upper c || is_digit c || Ascii.eqb c "_".

(** The hex digits of a raw identifier, lowercased: what
    [normalizeMacAddress] keeps of it. *)
Definition hex_digits (raw : string) : string :=
  toLowerCase (strip_separators raw).

(* ------------------------------------------------------------------ *)
(** ** More sample data *)

(** A world in which the device of the lobby is mapped, with a venue tag,
    to the active location "loc1", and the CRM is ready to create two
    contacts. *)
Definition tagged_world : World :=
  {| now := 0; ghl_connections := [expiring_connection]; location_mappings := [];
     mac_mappings :=
       [{| mac_address := "00:18:0a:27:29:76"; mm_location_id := "loc1";
           source_restaurant := Some "Maggie's"; source_tag := Some "Maggies" |}];
     vivaspot_sites := []; synced_contacts := []; sync_log := [];
     db_faults := []; fault_log := []; token_endpoint := [];
     contacts_endpoint := [ContactCreated "contact-1"; ContactCreated "contact-2"];
     http_calls := [] |}.

(** A contact request that [processContact] may send for [contact] from
    the world [w]: it goes to the tenant the device resolves to, for an
    event that is opted in and whose contact has no marker yet, and
    carries the email of the event and the fixed source and tag. *)
Definition sync_request (contact : Contact) (w : World) (e : HttpExchange) : Prop :=
  match e with
  | RefreshExchange _ _ => False
  | ContactExchange _ body _ =>
      resolve w (text (mac contact)) = Some (body_locationId body)
      /\ isOptedIn (opt_in contact) = true
      /\ marker_count (body_locationId body) (text (email contact)) w = 0%nat
      /\ body_email body = text (email contact)
      /\ body_source body = "VivaSpot WiFi"
      /\ body_tags body = ["vivaspot-wifi"]
  end.

(** The message of the error that [refreshAccessToken] throws on an
    answer, if it throws. *)
Definition refresh_error (response : TokenResponse) : option string :=
  match response with
  | TokenOk _ _ _ => None
  | TokenRejected text => Some ("Token refresh failed: " ++ text)%string
  | TokenNetworkError message => Some message
  end.

(** The ledger holds no entry with status skipped. *)
Definition no_skipped (rows : list SyncLogRow) : Prop :=
  Forall (fun row => row_has_status Skipped row = false) rows.

(** The key of [synced_contacts]: [UNIQUE (ghl_location_id, contact_email)]. *)
Definition marker_key (row : SyncedContact) : string * string :=
  (sc_location_id row, contact_email row).

Definition unique_markers (table : list SyncedContact) : Prop :=
  NoDup (map marker_key table).

(** Every marker holds its email in lower case. *)
Definition lowercase_markers (table : list SyncedContact) : Prop :=
  Forall (fun row => toLowerCase (contact_email row) = contact_email row) table.




Definition two_venues : list Site :=
  [{| site_id := 1; restaurant_name := "Maggie's Diner";
      hospitality_group := Some "Acme Group"; merchant_emails := ["owner@acme.com"];
      mac_addresses := ["00:18:0A:27:29:76"; "00:18:0a:27:29:77"] |};
   {| site_id := 2; restaurant_name := "Surf & Turf";
      hospitality_group := Some "Acme Group"; merchant_emails := ["owner@acme.com"];
      mac_addresses := ["00:18:0a:27:29:76"; "n/a"] |}].

(** The event that [POST /webhook/contact] hands to [processContact]. *)
Definition event_of (body : WebhookBody) : Contact :=
  {| mac := wb_mac body; email := wb_email body; name := wb_name body;
     phone := phone_or_mobile (wb_phone body) (wb_mobile body);
     opt_in := wb_opt_in body |}.

(* ================================================================== *)
(** * Device identifiers *)
(* ================================================================== *)

Lemma hex_lower_not_separator (c : ascii) :
  is_hex_lower c = true -> is_mac_separator c = false.
Proof.
  destruct c as [[] [] [] [] [] [] [] []]; vm_compute; congruence.
Qed.

Lemma hex_lower_is_lower_case (c : ascii) :
  is_hex_lower c = true -> lower_char c = c.
Proof.
  destruct c as [[] [] [] [] [] [] [] []]; vm_compute; congruence.
Qed.

Lemma lower_char_idempotent (c : ascii) : lower_char (lower_char c) = lower_char c.
Proof.
  destruct c as [[] [] [] [] [] [] [] []]; reflexivity.
Qed.

Lemma toLowerCase_idempotent (s : string) : toLowerCase (toLowerCase s) = toLowerCase s.
Proof.
  unfold toLowerCase.
  induction s as [|c s IH]; simpl; [reflexivity|].
  now rewrite lower_char_idempotent, IH.
Qed.

(** Induction on strings two characters at a time. *)
Lemma string_pair_ind (P : string -> Prop) :
  P EmptyString ->
  (forall a, P (String a EmptyString)) ->
  (forall a b s, P s -> P (String a (String b s))) ->
  forall s, P s.
Proof.
  intros H0 H1 H2.
  fix IH 1.
  intros [|a [|b s]]; [exact H0 | apply H1 | apply H2, IH].
Qed.

Lemma cleaned_canonical (hex : string) :
  all_chars is_hex_lower hex = true ->
  toLowerCase (strip_separators (String.concat ":" (octets hex)))
  = String.concat "" (octets hex).
Proof.
  induction hex as [| a | a b hex IH] using string_pair_ind; intros H;
    [reflexivity | reflexivity |].
  cbn [all_chars] in H.
  apply andb_true_iff in H. destruct H as [Ha H].
  apply andb_true_iff in H. destruct H as [Hb H].
  specialize (IH H).
  cbn [octets]. destruct (octets hex) as [|o os].
  - cbn. rewrite (hex_lower_not_separator _ Ha), (hex_lower_not_separator _ Hb).
    cbn. now rewrite (hex_lower_is_lower_case _ Ha), (hex_lower_is_lower_case _ Hb).
  - change (String.concat ":" (String a (String b "") :: o :: os))
      with (String a (String b (String ":" (String.concat ":" (o :: os))))).
    change (String.concat "" (String a (String b "") :: o :: os))
      with (String a (String b (String.concat "" (o :: os)))).
    unfold strip_separators, toLowerCase in *. cbn [filter_chars].
    rewrite (hex_lower_not_separator _ Ha), (hex_lower_not_separator _ Hb).
    cbn [negb map_chars]. replace (is_mac_separator ":") with true by reflexivity.
    cbn [negb].
    rewrite (hex_lower_is_lower_case _ Ha), (hex_lower_is_lower_case _ Hb).
    now rewrite IH.
Qed.

Lemma octets_of_twelve (hex : string) :
  String.length hex = 12%nat -> String.concat "" (octets hex) = hex.
Proof.
  intros Hlen.
  do 12 (destruct hex as [|? hex]; [discriminate Hlen|]).
  destruct hex; [reflexivity | discriminate Hlen].
Qed.

Lemma canonical_not_empty (hex : string) :
  String.length hex = 12%nat -> String.eqb (String.concat ":" (octets hex)) "" = false.
Proof.
  intros Hlen.
  do 2 (destruct hex as [|? hex]; [discriminate Hlen|]).
  cbn [octets String.concat]. now destruct (octets hex).
Qed.

Lemma canonical_mac_is_fixed (hex : string) :
  is_hex12 hex = true ->
  normalizeMacAddress (String.concat ":" (octets hex)) = Some (String.concat ":" (octets hex)).
Proof.
  intros H. pose proof H as H12.
  unfold is_hex12 in H.
  apply andb_true_iff in H. destruct H as [Hlen Hhex].
  apply Nat.eqb_eq in Hlen.
  unfold normalizeMacAddress.
  rewrite (canonical_not_empty _ Hlen).
  fold (strip_separators (String.concat ":" (octets hex))).
  rewrite (cleaned_canonical _ Hhex), (octets_of_twelve _ Hlen), H12.
  reflexivity.
Qed.

(** C8. Every string that [normalizeMacAddress] accepts is sent to a
    lowercase colon-separated identifier that [normalizeMacAddress] sends to
    itself: normalizing twice gives the same result as normalizing once. *)
Theorem normalizeMacAddress_idempotent (raw canonical : string) :
  normalizeMacAddress raw = Some canonical ->
  normalizeMacAddress canonical = Some canonical
  /\ exists hex, is_hex12 hex = true /\ canonical = String.concat ":" (octets hex).
Proof.
  unfold normalizeMacAddress.
  destruct (String.eqb raw ""); [discriminate|].
  set (cleaned := toLowerCase _).
  destruct (is_hex12 cleaned) eqn:H12; cbn [negb]; [|discriminate].
  intros [= <-]. split.
  - now apply canonical_mac_is_fixed.
  - now exists cleaned.
Qed.

Lemma normalizeMacAddress_idempotent_witness :
  normalizeMacAddress "00-18-0A-27-29-76" = Some "00:18:0a:27:29:76"
  /\ normalizeMacAddress "00:18:0a:27:29:76" = Some "00:18:0a:27:29:76".
Proof.
  split; [reflexivity|].
  apply (normalizeMacAddress_idempotent "00-18-0A-27-29-76" "00:18:0a:27:29:76").
  reflexivity.
Defined.

(* ================================================================== *)
(** * The opt-in check *)
(* ================================================================== *)

Lemma isOptedIn_string (s : string) :
  isOptedIn (JsStr s) = true
  <-> same_ignoring_case s "yes" \/ same_ignoring_case s "true"
      \/ same_ignoring_case s "1".
Proof.
  unfold same_ignoring_case. cbn.
  rewrite !orb_true_iff, !String.eqb_eq. tauto.
Qed.

Lemma isOptedIn_array (items : list JsValue) :
  isOptedIn (JsArray items) = true <-> items <> [].
Proof.
  destruct items; cbn; split; congruence.
Qed.

Lemma isOptedIn_object (fields : list (string * JsValue)) :
  isOptedIn (JsObject fields) = true
  <-> exists key x, In (key, x) fields /\ truthy x = true.
Proof.
  cbn. rewrite existsb_exists. split.
  - intros [[key x] [Hin Hx]]. now exists key, x.
  - intros (key & x & Hin & Hx). now exists (key, x).
Qed.

Lemma isOptedIn_affirmative (v : JsValue) : isOptedIn v = true <-> affirmative v.
Proof.
  unfold affirmative. split.
  - destruct v as [| | b | n | s | items | fields]; intros H; try discriminate H.
    + left. cbn in H. now subst.
    + right; left. exists s. split; [reflexivity|]. now apply isOptedIn_string.
    + right; right; left. exists items. split; [reflexivity|].
      now apply isOptedIn_array.
    + right; right; right. exists fields. split; [reflexivity|].
      now apply isOptedIn_object.
  - intros [-> | [(s & -> & H) | [(items & -> & H) | (fields & -> & H)]]].
    + reflexivity.
    + now apply isOptedIn_string.
    + now apply isOptedIn_array.
    + now apply isOptedIn_object.
Qed.

(** C3. [isOptedIn] accepts exactly the boolean [true], the strings equal
    to "yes", "true" or "1" up to letter case, the non-empty arrays and the
    objects with a truthy value; it rejects every other value, among them
    [false], "no", [null], [undefined], the empty array, an object whose
    values are all falsy, and the numbers; and an event that carries its
    two required fields and is not opted in ends as skipped, "Not opted
    in", without touching the world. *)
Theorem isOptedIn_classification (v : JsValue) (contact : Contact) (w : World) :
  (isOptedIn v = true <-> affirmative v)
  /\ (isOptedIn v = false <-> ~ affirmative v)
  /\ (forall n, isOptedIn (JsNumber n) = false)
  /\ Forall (fun x => isOptedIn x = true)
            [JsBoolean true; JsStr "yes"; JsStr "Yes"; JsStr "1"; JsStr "TRUE";
             JsArray [JsStr "x"]; JsObject [("a", JsBoolean true)]]
  /\ Forall (fun x => isOptedIn x = false)
            [JsBoolean false; JsStr "no"; JsNull; JsUndefined; JsArray [];
             JsObject [("a", JsBoolean false)]; JsObject []]
  /\ (present (mac contact) = true ->
      present (email contact) = true ->
      isOptedIn (opt_in contact) = false ->
      processContact contact w = (Return (failed Skipped "Not opted in"), w)).
Proof.
  split; [apply isOptedIn_affirmative|].
  split.
  { rewrite <- isOptedIn_affirmative. destruct (isOptedIn v); split; congruence. }
  split; [reflexivity|].
  split; [repeat constructor|].
  split; [repeat constructor|].
  intros Hmac Hemail Hopt. unfold processContact.
  now rewrite Hmac, Hemail, Hopt.
Qed.

Lemma isOptedIn_classification_witness :
  processContact guest_without_consent empty_world
  = (Return (failed Skipped "Not opted in"), empty_world).
Proof.
  destruct (isOptedIn_classification JsNull guest_without_consent empty_world)
    as (_ & _ & _ & _ & _ & H).
  apply H; reflexivity.
Defined.

(* ================================================================== *)
(** * The credential manager *)
(* ================================================================== *)




(* ================================================================== *)
(** * The sync pipeline *)
(* ================================================================== *)

Ltac unfold_pipeline :=
  unfold processContact, getLocationByMAC, isContactSynced, ensureValidToken,
    updateGHLTokens, refreshAccessToken, createContact, recordSyncedContact,
    logSync, try_catch, bind, ret, query, modify, get_world, date_now in *.

Ltac split_run :=
  match goal with
  | H : db_faults ?w = [] |- context [db_faults ?w] => rewrite H
  | |- context [parseName ?n] => destruct (parseName n) as [? ?] eqn:?
  | |- context [if ?b then _ else _] => destruct b eqn:?
  | |- context [match db_faults ?w with _ => _ end] =>
      is_var w; destruct (db_faults w) as [|[?|] ?] eqn:?
  | |- context [match ?l with _ => _ end] =>
      is_var l;
      lazymatch type of l with
      | list (option string) => destruct l as [|[?|] ?]
      end
  | |- context [match next_token_response ?w with _ => _ end] =>
      destruct (next_token_response w) eqn:?
  | |- context [match next_contact_response ?w with _ => _ end] =>
      destruct (next_contact_response w) eqn:?
  | |- context [match hd_error ?l with _ => _ end] =>
      destruct (hd_error l) eqn:?
  end; cbn.

Ltac run_pipeline := unfold_pipeline; cbn; repeat split_run.

(** What one invocation does to the ledger. *)
Lemma processContact_ledger (contact : Contact) (w : World) :
  let out := fst (processContact contact w) in
  let w' := snd (processContact contact w) in
  match out with
  | Return r =>
      match status r with
      | Success =>
          exists row, sync_log w' = sync_log w ++ [row]
                      /\ sl_status row = Success
                      /\ sl_contact_id row = ghl_contact_id r
      | Skipped => sync_log w' = sync_log w
      | Error =>
          if present (mac contact) && present (email contact)
          then exists row, sync_log w' = sync_log w ++ [row]
                           /\ sl_status row = Error
                           /\ sl_error_message row = reason r
          else sync_log w' = sync_log w
      end
  | Throw _ => sync_log w' = sync_log w
  end.
Proof.
  run_pipeline; try reflexivity; eauto;
    destruct (present (mac contact)), (present (email contact)); discriminate.
Qed.

(** C2, as amended.  An invocation that attempts the sync appends exactly
    one ledger entry: a success entry when it returns success, an error
    entry, carrying the reason, when a failure of the attempt is caught.
    An invocation that ends before a tenant is known appends none: a
    missing field, an event that is not opted in, a device without an
    active mapping.  An invocation that rejects appends none either. *)
Theorem ledger_written_only_after_attempt (contact : Contact) (w : World) :
  let out := fst (processContact contact w) in
  let w' := snd (processContact contact w) in
  match out with
  | Return r =>
      match status r with
      | Success =>
          exists row, sync_log w' = sync_log w ++ [row]
                      /\ sl_status row = Success
                      /\ sl_contact_id row = ghl_contact_id r
      | Skipped =>
          reason r = Some "Already synced" \/ sync_log w' = sync_log w
      | Error =>
          if present (mac contact) && present (email contact)
          then exists row, sync_log w' = sync_log w ++ [row]
                           /\ sl_status row = Error
                           /\ sl_error_message row = reason r
          else sync_log w' = sync_log w
      end
  | Throw _ => sync_log w' = sync_log w
  end.
Proof.
  pose proof (processContact_ledger contact w) as H. cbv zeta in *.
  destruct (fst (processContact contact w)) as [r|message]; [|exact H].
  destruct (status r); auto.
Qed.

(** C2, as stated, fails: an event that the opt-in check rejects ends the
    invocation without a ledger entry, although its device is mapped. *)
Lemma rejected_optin_leaves_no_ledger_entry :
  fst (processContact guest_without_consent renewing_world)
  = Return (failed Skipped "Not opted in")
  /\ List.length (sync_log (snd (processContact guest_without_consent renewing_world)))
     <> S (List.length (sync_log renewing_world)).
Proof.
  split; [reflexivity | vm_compute; discriminate].
Qed.




(* ------------------------------------------------------------------ *)
(** ** Idempotence *)

Lemma skipn_exact {A : Type} (l extra : list A) :
  skipn (List.length l) (l ++ extra) = extra.
Proof. induction l; [reflexivity | assumption]. Qed.

Lemma skipn_whole {A : Type} (l : list A) : skipn (List.length l) l = [].
Proof. induction l; [reflexivity | assumption]. Qed.

Lemma filter_none_existsb {A : Type} (p : A -> bool) (l : list A) :
  (0 <? List.length (filter p l))%nat = existsb p l.
Proof.
  induction l as [|x l IH]; [reflexivity|].
  cbn. destruct (p x); [reflexivity | exact IH].
Qed.

Lemma some_marker_existsb {A : Type} (p : A -> bool) (l : list A) :
  match List.length (filter p l) with
  | O => false
  | S _ => true
  end = existsb p l.
Proof. exact (filter_none_existsb p l). Qed.


Lemma marker_matches_refl (locationId email id : string) :
  marker_matches locationId email
    {| sc_location_id := locationId; contact_email := email; sc_contact_id := id |}
  = true.
Proof. unfold marker_matches. cbn. now rewrite !String.eqb_refl. Qed.


Lemma filter_map_same {A : Type} (p : A -> bool) (f : A -> A) (l : list A) :
  (forall x, p (f x) = p x) -> filter p (map f l) = map f (filter p l).
Proof.
  intros Hp. induction l as [|x l IH]; [reflexivity|].
  cbn. rewrite Hp. destruct (p x); cbn; now rewrite IH.
Qed.

(** A token refresh does not change which tenant a device resolves to. *)
Lemma resolve_update_tokens (w w1 : World) (locationId a r : string) (t : Z)
      (mac : string) :
  location_mappings w1 = location_mappings w ->
  ghl_connections w1 = update_tokens locationId a r t (ghl_connections w) ->
  resolve w1 mac = resolve w mac.
Proof.
  intros Hmaps Hconns. unfold resolve, join_active_connections.
  rewrite Hmaps, Hconns.
  induction (filter _ (location_mappings w)) as [|lm rows IH]; [reflexivity|].
  cbn [flat_map]. unfold update_tokens at 1.
  rewrite filter_map_same.
  2:{ intros gc. destruct (String.eqb (ghl_location_id gc) locationId); reflexivity. }
  rewrite map_map.
  destruct (filter _ (ghl_connections w)) as [|gc gcs]; [exact IH | reflexivity].
Qed.




Lemma filter_nothing {A : Type} (p : A -> bool) (l : list A) :
  (forall x, In x l -> p x = false) -> filter p l = [].
Proof.
  induction l as [|x l IH]; intros H; [reflexivity|].
  cbn. rewrite (H x (or_introl eq_refl)). apply IH.
  intros y Hy. apply H. now right.
Qed.



Lemma processContact_markers (contact : Contact) (w : World) :
  let w' := snd (processContact contact w) in
  (exists extra, synced_contacts w' = synced_contacts w ++ extra)
  /\ (sync_log w' = sync_log w
      \/ exists row,
          sync_log w' = sync_log w ++ [row]
          /\ (sl_status row = Success ->
              existsb (marker_matches (sl_location_id row) (toLowerCase (sl_email row)))
                      (synced_contacts w') = true)).
Proof.
  run_pipeline.
  all: split; [solve [exists []; now rewrite app_nil_r | eexists; reflexivity] |].
  all: try solve [left; reflexivity].
  all: right; eexists; (split; [reflexivity|]); cbn; try discriminate.
  all: intros _; try assumption.
  all: rewrite existsb_app; cbn [existsb].
  all: change (map_chars lower_char) with toLowerCase.
  all: now rewrite marker_matches_refl, orb_true_r.
Qed.

Lemma marked_successes_kept (contact : Contact) (w : World) :
  marked_successes w -> marked_successes (snd (processContact contact w)).
Proof.
  intros Hinv.
  destruct (processContact_markers contact w) as [[extra Hmarkers] Hlog].
  intros row Hin Hs.
  assert (Hold : In row (sync_log w) ->
                 existsb (marker_matches (sl_location_id row)
                                         (toLowerCase (sl_email row)))
                         (synced_contacts (snd (processContact contact w))) = true).
  { intros Hin'. rewrite Hmarkers, existsb_app, (Hinv row Hin' Hs). reflexivity. }
  destruct Hlog as [Hlog | (new & Hlog & Hnew)].
  - rewrite Hlog in Hin. auto.
  - rewrite Hlog in Hin. apply in_app_or in Hin. destruct Hin as [Hin | [<- | []]]; auto.
Qed.

Lemma no_marker_filter (w : World) (locationId email : string) :
  existsb (marker_matches locationId email) (synced_contacts w) = false ->
  filter (marker_matches locationId email) (synced_contacts w) = [].
Proof.
  rewrite <- filter_none_existsb. intros H.
  destruct (filter _ _); [reflexivity | discriminate H].
Qed.



(* ------------------------------------------------------------------ *)
(** ** The idempotence key *)




(* ================================================================== *)
(** * Bulk mapping *)
(* ================================================================== *)

Section BulkMapping.

Variable locationId : string.
Variables sourceRestaurant sourceTag : option string.

Let put := upsert locationId sourceRestaurant sourceTag.
Let fresh := mapped_row locationId sourceRestaurant sourceTag.

Lemma retarget_key (m : string) (row : MacMapping) :
  mac_address (retarget locationId sourceRestaurant sourceTag m row) = mac_address row.
Proof. unfold retarget. now destruct (String.eqb _ _). Qed.

Lemma upsert_keys (table : list MacMapping) (m : string) :
  map mac_address (put table m)
  = if existsb (fun row => String.eqb (mac_address row) m) table
    then map mac_address table
    else map mac_address table ++ [m].
Proof.
  unfold put, upsert. destruct (existsb _ table).
  - rewrite map_map. apply map_ext. apply retarget_key.
  - now rewrite map_app.
Qed.

Lemma existsb_key (table : list MacMapping) (m : string) :
  existsb (fun row => String.eqb (mac_address row) m) table = true
  <-> In m (map mac_address table).
Proof.
  rewrite existsb_exists, in_map_iff. split.
  - intros (row & Hin & E). apply String.eqb_eq in E. eauto.
  - intros (row & E & Hin). exists row. now rewrite E, String.eqb_refl.
Qed.

Lemma upsert_unique (table : list MacMapping) (m : string) :
  unique_macs table -> unique_macs (put table m).
Proof.
  unfold unique_macs. intros Hnd. rewrite upsert_keys.
  destruct (existsb _ table) eqn:E; [assumption|].
  apply NoDup_app; [assumption | repeat constructor; intros [] |].
  intros k Hk [<- | []]. apply existsb_key in Hk. congruence.
Qed.

Lemma rows_for_unique (table : list MacMapping) (m : string) :
  unique_macs table ->
  rows_for m (map (retarget locationId sourceRestaurant sourceTag m) table)
  = match rows_for m table with
    | [] => []
    | _ :: _ => [fresh m]
    end.
Proof.
  unfold unique_macs, rows_for.
  induction table as [|row table IH]; intros Hnd; [reflexivity|].
  cbn [map] in Hnd. inversion Hnd as [|k ks Hnotin Hnd']; subst.
  cbn [map filter]. rewrite retarget_key.
  destruct (String.eqb (mac_address row) m) eqn:E.
  - apply String.eqb_eq in E.
    assert (Hnone : forall t, ~ In m (map mac_address t) ->
              filter (fun r => String.eqb (mac_address r) m)
                (map (retarget locationId sourceRestaurant sourceTag m) t) = []).
    { intros t Ht. apply filter_nothing. intros r Hr.
      apply in_map_iff in Hr. destruct Hr as (r0 & <- & Hr0).
      rewrite retarget_key. apply String.eqb_neq. intros Heq.
      apply Ht. apply in_map_iff. eauto. }
    rewrite Hnone by (rewrite <- E; assumption).
    unfold retarget. rewrite <- E, String.eqb_refl. reflexivity.
  - rewrite IH by assumption. reflexivity.
Qed.

Lemma rows_for_upsert_same (table : list MacMapping) (m : string) :
  unique_macs table -> rows_for m (put table m) = [fresh m].
Proof.
  intros Hnd. unfold put, upsert.
  destruct (existsb _ table) eqn:E.
  - rewrite rows_for_unique by assumption.
    unfold rows_for. destruct (filter _ table) eqn:F; [|reflexivity].
    rewrite <- filter_none_existsb, F in E. discriminate E.
  - unfold rows_for. rewrite filter_app. cbn. rewrite String.eqb_refl.
    rewrite filter_nothing; [reflexivity|].
    intros row Hin. destruct (String.eqb (mac_address row) m) eqn:F; [|reflexivity].
    rewrite <- E. symmetry. apply existsb_exists. eauto.
Qed.

Lemma rows_for_upsert_other (table : list MacMapping) (m m' : string) :
  m <> m' -> rows_for m (put table m') = rows_for m table.
Proof.
  intros Hne. unfold put, upsert, rows_for.
  destruct (existsb _ table).
  - induction table as [|row table IH]; [reflexivity|].
    cbn [map filter]. rewrite retarget_key, IH.
    destruct (String.eqb (mac_address row) m) eqn:E; [|reflexivity].
    unfold retarget. apply String.eqb_eq in E.
    destruct (String.eqb (mac_address row) m') eqn:E'; [|reflexivity].
    apply String.eqb_eq in E'. congruence.
  - rewrite filter_app. cbn.
    destruct (String.eqb m' m) eqn:E; [|now rewrite app_nil_r].
    apply String.eqb_eq in E. congruence.
Qed.


Lemma fold_upsert_keeps (keys : list string) (table : list MacMapping) (m : string) :
  unique_macs table ->
  rows_for m table = [fresh m] ->
  rows_for m (fold_left put keys table) = [fresh m].
Proof.
  revert table. induction keys as [|k keys IH]; intros table Hnd Hrow; [assumption|].
  cbn. apply IH; [now apply upsert_unique|].
  destruct (String.eqb m k) eqn:E.
  - apply String.eqb_eq in E. subst k. now apply rows_for_upsert_same.
  - apply String.eqb_neq in E. now rewrite rows_for_upsert_other.
Qed.

Lemma fold_upsert_row (keys : list string) (table : list MacMapping) (m : string) :
  unique_macs table ->
  In m keys ->
  rows_for m (fold_left put keys table) = [fresh m].
Proof.
  revert table. induction keys as [|k keys IH]; intros table Hnd Hin; [destruct Hin|].
  cbn. destruct (String.eqb m k) eqn:E.
  - apply String.eqb_eq in E. subst k.
    apply fold_upsert_keeps; [now apply upsert_unique|].
    now apply rows_for_upsert_same.
  - apply String.eqb_neq in E. destruct Hin as [-> | Hin]; [congruence|].
    apply IH; [now apply upsert_unique | assumption].
Qed.

(** The loop over a reliable store: the counter advances by the number of
    accepted entries, and each accepted entry is upserted in turn. *)
Lemma mapEachMac_reliable (macAddresses : list string) (created : nat) (w : World) :
  db_faults w = [] ->
  let run := mapEachMac locationId sourceRestaurant sourceTag macAddresses created w in
  fst run = Return (created + List.length (filter accepted macAddresses))%nat
  /\ db_faults (snd run) = []
  /\ mac_mappings (snd run)
     = fold_left put (map normalizeMappingMac (filter accepted macAddresses))
                 (mac_mappings w).
Proof.
  revert created w.
  induction macAddresses as [|mac rest IH]; intros created w Hreliable.
  - cbn. rewrite Nat.add_0_r. auto.
  - cbn [mapEachMac filter].
    assert (Hacc : accepted mac
                   = negb (String.eqb (normalizeMappingMac mac) ""
                           || (String.length (normalizeMappingMac mac) <? 11)%nat))
      by reflexivity.
    destruct (String.eqb (normalizeMappingMac mac) "" || _) eqn:Hskip;
      cbn [negb] in Hacc; rewrite Hacc.
    + apply IH. assumption.
    + unfold bind, query, get_world, modify. rewrite Hreliable.
      cbn [map fold_left List.length]. fold put.
      destruct (existsb _ (mac_mappings w)) eqn:E; rewrite Hreliable.
      * specialize (IH (S created)
                       (with_mac_mappings
                          (map (retarget locationId sourceRestaurant sourceTag
                                         (normalizeMappingMac mac))
                               (mac_mappings w)) w) Hreliable).
        cbv zeta in IH. destruct IH as (Hout & Hfaults & Htable).
        rewrite Hout, Hfaults, Htable. cbn [mac_mappings with_mac_mappings].
        unfold put at 3, upsert. rewrite E.
        repeat split; auto; f_equal; lia.
      * specialize (IH (S created)
                       (with_mac_mappings
                          (mac_mappings w
                             ++ [{| mac_address := normalizeMappingMac mac;
                                    mm_location_id := locationId;
                                    source_restaurant := sourceRestaurant;
                                    source_tag := sourceTag |}]) w) Hreliable).
        cbv zeta in IH. destruct IH as (Hout & Hfaults & Htable).
        rewrite Hout, Hfaults, Htable. cbn [mac_mappings with_mac_mappings].
        unfold put at 3, upsert. rewrite E.
        repeat split; auto; f_equal; lia.
Qed.

End BulkMapping.

Lemma accepted_long (mac : string) :
  accepted mac = (11 <=? String.length (trim (toLowerCase mac)))%nat.
Proof.
  unfold accepted, normalizeMappingMac.
  destruct (trim (toLowerCase mac)) as [|c s]; [reflexivity|].
  cbn [String.eqb orb]. rewrite Nat.ltb_antisym. now rewrite negb_involutive.
Qed.



(* ================================================================== *)
(** * The site matcher *)
(* ================================================================== *)

(** ** [LIKE] without wildcards is containment *)







(** ** [ORDER BY restaurant_name] *)

Lemma insert_by_name_perm (site : Site) (rows : list Site) :
  Permutation (insert_by_name site rows) (site :: rows).
Proof.
  induction rows as [|row rows IH]; [reflexivity|].
  cbn. destruct (String.leb _ _); [reflexivity|].
  rewrite IH. apply perm_swap.
Qed.

Lemma order_by_name_perm (rows : list Site) : Permutation (order_by_name rows) rows.
Proof.
  induction rows as [|row rows IH]; [reflexivity|].
  cbn. rewrite insert_by_name_perm. now constructor.
Qed.



Lemma order_by_name_length (rows : list Site) :
  List.length (order_by_name rows) = List.length rows.
Proof. apply Permutation_length, order_by_name_perm. Qed.

(** ** The later strategies never answer with a group *)

Lemma matchSingleSite_not_group (normalizedEmail normalizedName : string) (w : World)
      (result : MatchResult) :
  fst (matchSingleSite normalizedEmail normalizedName w) = Return result ->
  is_group result = false.
Proof.
  unfold matchSingleSite, bind, query, get_world, ret.
  repeat match goal with
         | |- context [match db_faults ?w with _ => _ end] =>
             destruct (db_faults w) as [|[?|] ?]; cbn
         | |- context [match ?l with _ => _ end] =>
             is_var l;
             lazymatch type of l with
             | list (option string) => destruct l as [|[?|] ?]; cbn
             end
         | |- context [match filter ?p ?l with _ => _ end] =>
             destruct (filter p l) as [|? [|? ?]]; cbn
         | |- context [match find ?p ?l with _ => _ end] => destruct (find p l); cbn
         | |- context [if ?b then _ else _] => destruct b; cbn
         end;
    try discriminate; now intros [= <-].
Qed.




(* ================================================================== *)
(** * Onboarding and sync use different normalizations *)
(* ================================================================== *)

(** C7. The manual setup accepts the identifier "00-18-0A-27-29-76" and
    stores it as "00:18:0a:27:29:76" in [mac_mappings].  The sync path does
    not find the device under the spelling it was entered with:
    [getLocationByMAC] looks for "00:18:0A:27:29:76" in [location_mappings],
    [getMacMappingWithTag] looks for "00-18-0a-27-29-76" in [mac_mappings],
    and [processContact] skips the event for want of a mapping.  Only the
    canonical spelling is found, and only by [getMacMappingWithTag]. *)
Theorem onboarded_device_missed_by_sync :
  fst (setupSave "loc1" [entered_mac] (mapping_world [])) = Return (SetupSaved 1)
  /\ mac_mappings onboarded_world
     = [{| mac_address := "00:18:0a:27:29:76"; mm_location_id := "loc1";
           source_restaurant := None; source_tag := None |}]
  /\ normalizeMacAddress entered_mac = Some "00:18:0a:27:29:76"
  /\ normalizeLocationMac entered_mac = "00:18:0A:27:29:76"
  /\ normalizeMappingMac entered_mac = "00-18-0a-27-29-76"
  /\ fst (getLocationByMAC entered_mac onboarded_world) = Return None
  /\ fst (getMacMappingWithTag entered_mac onboarded_world) = Return None
  /\ fst (processContact (event_from_device entered_mac) onboarded_world)
     = Return (failed Skipped "No GHL mapping for this MAC address")
  /\ fst (getLocationByMAC "00:18:0a:27:29:76" onboarded_world) = Return None
  /\ fst (getMacMappingWithTag "00:18:0a:27:29:76" onboarded_world)
     = Return (Some {| mac_address := "00:18:0a:27:29:76"; mm_location_id := "loc1";
                       source_restaurant := None; source_tag := None |}).
Proof. repeat split; reflexivity. Qed.

(* ================================================================== *)
(** * Strings: reversal and trimming *)
(* ================================================================== *)

Lemma append_empty (s : string) : (s ++ "")%string = s.
Proof. induction s as [|c s IH]; [reflexivity | cbn; now rewrite IH]. Qed.

Lemma append_assoc (a b c : string) : ((a ++ b) ++ c)%string = (a ++ (b ++ c))%string.
Proof. induction a as [|x a IH]; [reflexivity | cbn; now rewrite IH]. Qed.

Lemma rev_append_spec (acc s : string) : rev_append acc s = (rev s ++ acc)%string.
Proof.
  unfold rev. revert acc.
  induction s as [|c s IH]; intros acc; [reflexivity|].
  cbn [rev_append]. rewrite (IH (String c acc)), (IH (String c EmptyString)).
  now rewrite append_assoc.
Qed.

Lemma rev_cons (c : ascii) (s : string) :
  rev (String c s) = (rev s ++ String c "")%string.
Proof. unfold rev at 1. cbn [rev_append]. apply rev_append_spec. Qed.

Lemma rev_append_string (a b : string) : rev (a ++ b)%string = (rev b ++ rev a)%string.
Proof.
  induction a as [|c a IH]; cbn [String.append].
  - now rewrite append_empty.
  - now rewrite !rev_cons, IH, append_assoc.
Qed.

Lemma rev_involutive (s : string) : rev (rev s) = s.
Proof.
  induction s as [|c s IH]; [reflexivity|].
  now rewrite rev_cons, rev_append_string, IH.
Qed.

Lemma all_chars_append (p : ascii -> bool) (a b : string) :
  all_chars p (a ++ b)%string = all_chars p a && all_chars p b.
Proof.
  induction a as [|c a IH]; [reflexivity|].
  cbn. now rewrite IH, andb_assoc.
Qed.

Lemma all_chars_rev (p : ascii -> bool) (s : string) :
  all_chars p (rev s) = all_chars p s.
Proof.
  induction s as [|c s IH]; [reflexivity|].
  rewrite rev_cons, all_chars_append, IH. cbn. rewrite andb_true_r. apply andb_comm.
Qed.

(** [trim_start] removes a run of whitespace from the front. *)
Lemma trim_start_split (s : string) :
  exists spaces, s = (spaces ++ trim_start s)%string /\ all_chars is_space spaces = true.
Proof.
  induction s as [|c s (spaces & Hs & Hall)].
  - now exists EmptyString.
  - cbn [trim_start]. destruct (is_space c) eqn:E.
    + exists (String c spaces). cbn. rewrite E, Hall. split; [now f_equal | reflexivity].
    + now exists EmptyString.
Qed.

Lemma trim_start_starts (s : string) : first_is is_space (trim_start s) = false.
Proof.
  induction s as [|c s IH]; [reflexivity|].
  cbn [trim_start]. destruct (is_space c) eqn:E; [exact IH | exact E].
Qed.

Lemma trim_start_fixed (s : string) : first_is is_space s = false -> trim_start s = s.
Proof. destruct s as [|c s]; [reflexivity|]. cbn. now intros ->. Qed.

Lemma all_chars_trim_start (p : ascii -> bool) (s : string) :
  all_chars p s = true -> all_chars p (trim_start s) = true.
Proof.
  induction s as [|c s IH]; [reflexivity|].
  cbn [trim_start]. destruct (is_space c); [|trivial].
  cbn. intros H. apply andb_true_iff in H. now apply IH.
Qed.

Lemma all_chars_trim (p : ascii -> bool) (s : string) :
  all_chars p s = true -> all_chars p (trim s) = true.
Proof.
  intros H. unfold trim. rewrite all_chars_rev. apply all_chars_trim_start.
  rewrite all_chars_rev. now apply all_chars_trim_start.
Qed.

(** A trimmed string neither begins nor ends with whitespace. *)
Lemma trim_edges (s : string) :
  first_is is_space (trim s) = false /\ last_is is_space (trim s) = false.
Proof.
  unfold trim, last_is. rewrite rev_involutive. split.
  - set (x := trim_start s).
    destruct (trim_start_split (rev x)) as (spaces & Hsplit & Hall).
    set (y := trim_start (rev x)) in *.
    assert (Hx : x = (rev y ++ rev spaces)%string).
    { rewrite <- (rev_involutive x), Hsplit. apply rev_append_string. }
    destruct (rev y) as [|c r] eqn:Hy; [reflexivity|].
    pose proof (trim_start_starts s) as Hfirst. fold x in Hfirst.
    rewrite Hx in Hfirst. exact Hfirst.
  - apply trim_start_starts.
Qed.

Lemma trim_fixed (s : string) :
  first_is is_space s = false -> last_is is_space s = false -> trim s = s.
Proof.
  intros Hs He. unfold trim. rewrite (trim_start_fixed s Hs).
  rewrite (trim_start_fixed (rev s) He). apply rev_involutive.
Qed.


Lemma last_is_cons (p : ascii -> bool) (c : ascii) (s : string) :
  last_is p (String c s)
  = match s with
    | EmptyString => p c
    | String _ _ => last_is p s
    end.
Proof.
  unfold last_is. rewrite rev_cons. destruct s as [|d s]; [reflexivity|].
  destruct (rev (String d s)) as [|e r] eqn:E; [|reflexivity].
  apply (f_equal rev) in E. rewrite rev_involutive in E. discriminate E.
Qed.

(* ================================================================== *)
(** * Names *)
(* ================================================================== *)




Lemma all_chars_weaken (p q : ascii -> bool) (s : string) :
  (forall c, p c = true -> q c = true) -> all_chars p s = true -> all_chars q s = true.
Proof.
  intros Hpq. induction s as [|c s IH]; [reflexivity|].
  cbn. intros H. apply andb_true_iff in H. destruct H as [Hc Hs].
  now rewrite (Hpq c Hc), IH.
Qed.

Lemma no_space_edges (s : string) :
  all_chars not_space s = true ->
  first_is is_space s = false /\ last_is is_space s = false.
Proof.
  intros H. split.
  - destruct s as [|c s]; [reflexivity|]. cbn in *.
    apply andb_true_iff in H. now apply negb_true_iff.
  - unfold last_is. rewrite <- all_chars_rev in H.
    destruct (rev s) as [|c r]; [reflexivity|]. cbn in *.
    apply andb_true_iff in H. now apply negb_true_iff.
Qed.



Lemma all_chars_filter (p : ascii -> bool) (s : string) :
  all_chars p (filter_chars p s) = true.
Proof.
  induction s as [|c s IH]; [reflexivity|].
  cbn. destruct (p c) eqn:E; [cbn; now rewrite E | exact IH].
Qed.

Lemma name_char_tag (c : ascii) :
  is_name_char c = true -> is_space c = false ->
  is_tag_char c = true /\ Ascii.eqb c "_" = false.
Proof.
  destruct c as [[] [] [] [] [] [] [] []]; vm_compute; intuition congruence.
Qed.

Lemma underscore_runs_chars (s : string) (in_run : bool) :
  all_chars is_name_char s = true ->
  all_chars is_tag_char (underscore_runs in_run s) = true.
Proof.
  revert in_run. induction s as [|c s IH]; intros in_run H; [reflexivity|].
  cbn in H. apply andb_true_iff in H. destruct H as [Hc Hs].
  cbn [underscore_runs]. destruct (is_space c) eqn:E.
  - destruct in_run; cbn; now apply IH.
  - cbn. rewrite (proj1 (name_char_tag c Hc E)). now apply IH.
Qed.

Lemma underscore_runs_last (s : string) (in_run : bool) :
  all_chars is_name_char s = true ->
  last_is is_space s = false ->
  s <> "" ->
  underscore_runs in_run s <> ""
  /\ last_is (fun c => Ascii.eqb c "_") (underscore_runs in_run s) = false.
Proof.
  revert in_run. induction s as [|c s IH]; intros in_run Hall Hlast Hne;
    [contradiction|].
  cbn in Hall. apply andb_true_iff in Hall. destruct Hall as [Hc Hs].
  rewrite last_is_cons in Hlast. destruct s as [|d s].
  - cbn. rewrite Hlast. split; [discriminate|].
    unfold last_is. cbn. apply (name_char_tag c Hc Hlast).
  - destruct (IH true Hs Hlast ltac:(discriminate)) as [Hne1 Hlast1].
    destruct (IH false Hs Hlast ltac:(discriminate)) as [Hne0 Hlast0].
    remember (String d s) as rest eqn:Hrest. clear IH Hrest.
    cbn [underscore_runs]. destruct (is_space c).
    + destruct in_run; [now split|].
      split; [discriminate|]. rewrite last_is_cons.
      destruct (underscore_runs true rest); congruence.
    + split; [discriminate|]. rewrite last_is_cons.
      destruct (underscore_runs false rest); congruence.
Qed.

(** X2. [nameToTag]: the tag is made of letters, digits and underscores,
    and neither begins nor ends with an underscore. *)
Theorem nameToTag_shape (name : string) :
  all_chars is_tag_char (nameToTag name) = true
  /\ first_is (fun c => Ascii.eqb c "_") (nameToTag name) = false
  /\ last_is (fun c => Ascii.eqb c "_") (nameToTag name) = false.
Proof.
  unfold nameToTag.
  set (plain := filter_chars is_name_char _).
  assert (Hall : all_chars is_name_char (trim plain) = true)
    by apply all_chars_trim, all_chars_filter.
  destruct (trim_edges plain) as [Hfirst Hlast].
  split; [now apply underscore_runs_chars|]. split.
  - destruct (trim plain) as [|c s]; [reflexivity|].
    cbn in Hall, Hfirst |- *. rewrite Hfirst. cbn.
    apply andb_true_iff in Hall. now apply name_char_tag.
  - destruct (trim plain) as [|c s] eqn:E; [reflexivity|].
    now apply underscore_runs_last.
Qed.

(* ================================================================== *)
(** * Device identifiers, continued *)
(* ================================================================== *)

Lemma normalizeMacAddress_hex_digits (raw : string) :
  normalizeMacAddress raw
  = if is_hex12 (hex_digits raw)
    then Some (String.concat ":" (octets (hex_digits raw)))
    else None.
Proof.
  unfold normalizeMacAddress, hex_digits, strip_separators.
  destruct (String.eqb raw "") eqn:E.
  - apply String.eqb_eq in E. now subst.
  - now destruct (is_hex12 _).
Qed.


Lemma canonical_length (hex : string) :
  String.length hex = 12%nat -> String.length (String.concat ":" (octets hex)) = 17%nat.
Proof.
  intros Hlen.
  do 12 (destruct hex as [|? hex]; [discriminate Hlen|]).
  destruct hex; [reflexivity | discriminate Hlen].
Qed.





Lemma hex_char_keys (c : ascii) :
  is_hex c = true ->
  is_mac_separator c = false
  /\ is_hex_lower (lower_char c) = true
  /\ upper_char (lower_char c) = upper_char c
  /\ Ascii.eqb (upper_char c) "-" = false.
Proof.
  destruct c as [[] [] [] [] [] [] [] []]; vm_compute; intuition congruence.
Qed.

Lemma group_separator (c : ascii) :
  Ascii.eqb c ":" || Ascii.eqb c "-" = true ->
  is_mac_separator c = true
  /\ (if Ascii.eqb (upper_char c) "-" then ":"%char else upper_char c) = ":"%char.
Proof.
  destruct c as [[] [] [] [] [] [] [] []]; vm_compute; intuition congruence.
Qed.

Lemma mac_groups_keys (n : nat) (s : string) :
  mac_groups n s = true ->
  all_chars is_hex_lower (hex_digits s) = true
  /\ String.length (hex_digits s) = (2 * (n + 1))%nat
  /\ normalizeLocationMac s = toUpperCase (String.concat ":" (octets (hex_digits s))).
Proof.
  revert s. induction n as [|n IH]; intros s H.
  - destruct s as [|a [|b [|? ?]]]; try discriminate H. cbn in H.
    apply andb_true_iff in H. destruct H as [Ha Hb].
    destruct (hex_char_keys a Ha) as (Sa & La & Ua & Da).
    destruct (hex_char_keys b Hb) as (Sb & Lb & Ub & Db).
    unfold hex_digits, strip_separators, normalizeLocationMac, toUpperCase,
      toLowerCase, replace_hyphens.
    cbn. rewrite Sa, Sb. cbn. rewrite La, Lb, Ua, Ub, Da, Db. auto.
  - destruct s as [|a [|b [|c rest]]]; try discriminate H. cbn [mac_groups] in H.
    apply andb_true_iff in H. destruct H as [H Hrest].
    apply andb_true_iff in H. destruct H as [H Hc].
    apply andb_true_iff in H. destruct H as [Ha Hb].
    destruct (hex_char_keys a Ha) as (Sa & La & Ua & Da).
    destruct (hex_char_keys b Hb) as (Sb & Lb & Ub & Db).
    destruct (group_separator c Hc) as (Sc & Rc).
    destruct (IH rest Hrest) as (Hall & Hlen & Hkey).
    assert (Hdigits : hex_digits (String a (String b (String c rest)))
                      = String (lower_char a) (String (lower_char b) (hex_digits rest))).
    { unfold hex_digits, strip_separators, toLowerCase. cbn.
      now rewrite Sa, Sb, Sc. }
    assert (Hlocation : normalizeLocationMac (String a (String b (String c rest)))
                        = String (upper_char a)
                            (String (upper_char b)
                               (String ":" (normalizeLocationMac rest)))).
    { unfold normalizeLocationMac, toUpperCase, replace_hyphens. cbn.
      now rewrite Da, Db, Rc. }
    rewrite Hdigits, Hlocation, Hkey. cbn [all_chars String.length octets].
    rewrite La, Lb, Hall, Hlen. split; [reflexivity|]. split; [lia|].
    destruct (hex_digits rest) as [|x [|y more]]; cbn in Hlen; try lia.
    cbn [octets].
    change (String.concat ":"
              (String (lower_char a) (String (lower_char b) "")
                 :: String x (String y "") :: octets more))
      with (String (lower_char a)
              (String (lower_char b)
                 (String ":" (String.concat ":" (String x (String y "") :: octets more))))).
    unfold toUpperCase. cbn [map_chars]. now rewrite Ua, Ub.
Qed.

(** X4. An identifier that passes the check of [POST /api/mappings] is one
    that [normalizeMacAddress] accepts, and the key under which
    [addLocationMapping] and [getLocationByMAC] file it is the uppercase of
    its canonical form. *)
Theorem macRegex_key_is_uppercase_canonical (mac : string) :
  macRegex mac = true ->
  exists canonical,
    normalizeMacAddress mac = Some canonical
    /\ normalizeLocationMac mac = toUpperCase canonical.
Proof.
  intros H. destruct (mac_groups_keys 5 mac H) as (Hall & Hlen & Hkey).
  exists (String.concat ":" (octets (hex_digits mac))). split; [|exact Hkey].
  rewrite normalizeMacAddress_hex_digits. unfold is_hex12.
  now rewrite Hlen, Hall.
Qed.

Lemma macRegex_key_is_uppercase_canonical_witness :
  exists canonical,
    normalizeMacAddress "00-18-0a-27-29-76" = Some canonical
    /\ normalizeLocationMac "00-18-0a-27-29-76" = toUpperCase canonical.
Proof. apply macRegex_key_is_uppercase_canonical. reflexivity. Defined.

(* ================================================================== *)
(** * The sync service with venue tags *)
(* ================================================================== *)

(** X5. [checkOptIn] of the updated service is stricter than [isOptedIn]:
    what it accepts [isOptedIn] accepts, but of the strings it accepts
    only "true", "Yes" and "yes", spelled so, and it accepts no object and
    no number. *)
Theorem checkOptIn_stricter (v : JsValue) :
  (checkOptIn v = true -> isOptedIn v = true)
  /\ (forall s, checkOptIn (JsStr s) = true <-> s = "true" \/ s = "Yes" \/ s = "yes")
  /\ (forall fields, checkOptIn (JsObject fields) = false)
  /\ (forall items, checkOptIn (JsArray items) = isOptedIn (JsArray items))
  /\ (forall b, checkOptIn (JsBoolean b) = isOptedIn (JsBoolean b)).
Proof.
  split; [|split; [|repeat split]].
  - destruct v as [| | b | n | s | items | fields]; cbn; try congruence.
    rewrite !orb_true_iff, !String.eqb_eq.
    intros [[-> | ->] | ->]; cbn; auto.
  - intros s. cbn. rewrite !orb_true_iff, !String.eqb_eq. tauto.
Qed.

Lemma checkOptIn_stricter_witness :
  isOptedIn (JsStr "Yes") = true /\ checkOptIn (JsStr "YES") = false.
Proof.
  destruct (checkOptIn_stricter (JsStr "Yes")) as (Hsub & Hstr & _).
  split; [apply Hsub; reflexivity|].
  destruct (checkOptIn (JsStr "YES")) eqn:E; [|reflexivity].
  apply Hstr in E. destruct E as [E | [E | E]]; discriminate E.
Defined.

Ltac unfold_tagged :=
  unfold processContactWithTags, getMacMappingWithTag, getGHLConnection, createContact,
    try_catch, bind, ret, query, get_world in *.

Ltac split_tagged :=
  match goal with
  | H : db_faults ?w = [] |- context [db_faults ?w] => rewrite H
  | |- context [parseName ?n] => destruct (parseName n) as [? ?] eqn:?
  | |- context [match find ?p ?l with _ => _ end] => destruct (find p l) eqn:?
  | |- context [if ?b then _ else _] => destruct b eqn:?
  | |- context [match db_faults ?w with _ => _ end] =>
      is_var w; destruct (db_faults w) as [|[?|] ?] eqn:?
  | |- context [match ?l with _ => _ end] =>
      is_var l;
      lazymatch type of l with
      | list (option string) => destruct l as [|[?|] ?]
      end
  | |- context [match next_contact_response ?w with _ => _ end] =>
      destruct (next_contact_response w) eqn:?
  end; cbn.

Ltac run_tagged := unfold_tagged; cbn; repeat split_tagged.

(** X6. The updated [processContact] keeps no record and renews no token:
    it leaves every table and the token endpoint as they are, and sends at
    most one request, a contact request that uses the stored access token
    of the active connection of the location the device is mapped to, and
    carries the email of the event and the tag "Vivaspot-WiFi", followed by
    the venue tag when the mapping has one. *)
Theorem tagged_sync_keeps_no_record (contact : Contact) (w : World) :
  let w' := snd (processContactWithTags contact w) in
  ghl_connections w' = ghl_connections w
  /\ location_mappings w' = location_mappings w
  /\ mac_mappings w' = mac_mappings w
  /\ synced_contacts w' = synced_contacts w
  /\ sync_log w' = sync_log w
  /\ token_endpoint w' = token_endpoint w
  /\ (exchanges_since w w' = []
      \/ exists row gc body response,
          In row (mac_mappings w)
          /\ mac_address row = normalizeMappingMac (text (mac contact))
          /\ In gc (ghl_connections w)
          /\ ghl_location_id gc = mm_location_id row
          /\ is_active gc = true
          /\ exchanges_since w w' = [ContactExchange (access_token gc) body response]
          /\ body_locationId body = mm_location_id row
          /\ body_email body = text (email contact)
          /\ body_tags body
             = "Vivaspot-WiFi"
                 :: (if present (source_tag row) then [text (source_tag row)] else [])).
Proof.
  unfold exchanges_since. run_tagged.
  all: rewrite ?skipn_exact, ?skipn_whole.
  all: repeat (split; [reflexivity|]).
  all: try solve [left; reflexivity].
  all: right.
  all: repeat match goal with
              | H : find _ _ = Some _ |- _ => apply find_some in H; destruct H as [? H]
              | H : _ && _ = true |- _ => apply andb_true_iff in H; destruct H as [? ?]
              | H : String.eqb _ _ = true |- _ => apply String.eqb_eq in H
              end.
  all: do 4 eexists; repeat (split; [eassumption || reflexivity|]);
    try reflexivity; try eassumption.
  all: cbn;
    match goal with
    | H : present (source_tag _) = _ |- _ => now rewrite H
    end.
Qed.

(** A successful run of the updated service over a reliable store. *)
Lemma tagged_success (contact : Contact) (w : World) (r : TaggedResult) :
  db_faults w = [] ->
  fst (processContactWithTags contact w) = Return r ->
  status (outcome r) = Success ->
  exists row gc id,
    present (mac contact) = true
    /\ present (email contact) = true
    /\ checkOptIn (opt_in contact) = true
    /\ find (fun row => String.eqb (mac_address row)
                                   (normalizeMappingMac (text (mac contact))))
            (mac_mappings w) = Some row
    /\ find (fun gc => String.eqb (ghl_location_id gc) (mm_location_id row)
                       && is_active gc) (ghl_connections w) = Some gc
    /\ next_contact_response w = ContactCreated id.
Proof.
  intros Hreliable. run_tagged; intros [= <-]; try discriminate.
  all: intros _; do 3 eexists.
  all: apply negb_false_iff in Heqb, Heqb0, Heqb1.
  all: repeat split; eauto.
Qed.

Lemma tagged_run (contact : Contact) (w : World) (row : MacMapping) (gc : Connection)
      (id : string) :
  db_faults w = [] ->
  present (mac contact) = true ->
  present (email contact) = true ->
  checkOptIn (opt_in contact) = true ->
  find (fun row => String.eqb (mac_address row)
                              (normalizeMappingMac (text (mac contact))))
       (mac_mappings w) = Some row ->
  find (fun gc => String.eqb (ghl_location_id gc) (mm_location_id row) && is_active gc)
       (ghl_connections w) = Some gc ->
  next_contact_response w = ContactCreated id ->
  exists body r,
    processContactWithTags contact w
    = (Return r,
       with_contacts_endpoint (tl (contacts_endpoint w))
         (http_calls w ++ [ContactExchange (access_token gc) body (ContactCreated id)]) w)
    /\ status (outcome r) = Success
    /\ body_locationId body = mm_location_id row
    /\ body_email body = text (email contact)
    /\ forall w0 id0,
        db_faults w0 = [] ->
        mac_mappings w0 = mac_mappings w ->
        ghl_connections w0 = ghl_connections w ->
        next_contact_response w0 = ContactCreated id0 ->
        processContactWithTags contact w0
        = (Return r,
           with_contacts_endpoint (tl (contacts_endpoint w0))
             (http_calls w0 ++ [ContactExchange (access_token gc) body (ContactCreated id0)])
             w0).
Proof.
  intros Hreliable Hmac Hemail Hopt Hrow Hgc Hnext.
  assert (Hactive : is_active gc = true).
  { apply find_some in Hgc. destruct Hgc as [_ Hgc].
    now apply andb_true_iff in Hgc. }
  unfold_tagged. rewrite Hmac, Hemail, Hopt.
  repeat first [progress cbn | rewrite Hreliable | rewrite Hrow | rewrite Hgc
                | rewrite Hactive].
  destruct (parseName (name contact)) as [firstName lastName].
  rewrite Hnext. cbn.
  do 2 eexists. split; [reflexivity|]. repeat split.
  intros w0 id0 Hreliable0 Hmaps Hconns Hnext0.
  repeat first [progress cbn | rewrite Hreliable0 | rewrite Hmaps | rewrite Hconns
                | rewrite Hrow | rewrite Hgc | rewrite Hactive].
  now rewrite Hnext0.
Qed.

(** X7. The updated [processContact] has no duplicate check: over a
    reliable store, when an event was synced and the CRM accepts the next
    contact request too, the same event is synced again, with the same
    result and the same request. *)
Theorem tagged_sync_repeats (contact : Contact) (w : World) (r : TaggedResult)
        (id' : string) :
  db_faults w = [] ->
  fst (processContactWithTags contact w) = Return r ->
  status (outcome r) = Success ->
  let w1 := snd (processContactWithTags contact w) in
  let w2 := snd (processContactWithTags contact w1) in
  next_contact_response w1 = ContactCreated id' ->
  fst (processContactWithTags contact w1) = Return r
  /\ exists accessToken body id,
      exchanges_since w w1 = [ContactExchange accessToken body (ContactCreated id)]
      /\ exchanges_since w1 w2 = [ContactExchange accessToken body (ContactCreated id')].
Proof.
  intros Hreliable Hout Hstatus w1 w2 Hnext.
  destruct (tagged_success contact w r Hreliable Hout Hstatus)
    as (row & gc & id & Hmac & Hemail & Hopt & Hrow & Hgc & Hresp).
  destruct (tagged_run contact w row gc id Hreliable Hmac Hemail Hopt Hrow Hgc Hresp)
    as (body & r0 & Hrun & _ & _ & _ & Hagain).
  assert (Hr : r0 = r) by (rewrite Hrun in Hout; now injection Hout).
  subst r0.
  assert (Hw1 : w1 = with_contacts_endpoint (tl (contacts_endpoint w))
                       (http_calls w ++ [ContactExchange (access_token gc) body
                                                         (ContactCreated id)]) w)
    by (unfold w1; now rewrite Hrun).
  assert (Hrun1 := Hagain w1 id').
  rewrite Hw1 in Hrun1 at 1 2 3 4. cbn [db_faults mac_mappings ghl_connections
    with_contacts_endpoint] in Hrun1.
  specialize (Hrun1 Hreliable eq_refl eq_refl).
  rewrite <- Hw1 in Hrun1. specialize (Hrun1 Hnext).
  split; [now rewrite Hrun1|].
  exists (access_token gc), body, id. unfold w2, exchanges_since.
  rewrite Hrun1. cbn [snd http_calls with_contacts_endpoint].
  rewrite skipn_exact. split; [|reflexivity].
  rewrite Hw1. cbn [http_calls with_contacts_endpoint]. apply skipn_exact.
Qed.

Lemma tagged_sync_repeats_witness :
  fst (processContactWithTags returning_guest
         (snd (processContactWithTags returning_guest tagged_world)))
  = fst (processContactWithTags returning_guest tagged_world).
Proof.
  destruct (tagged_sync_repeats returning_guest tagged_world
              {| outcome := {| status := Success; reason := None; ghl_contact_id := None;
                               result_location_id := Some "loc1" |};
                 tags_applied := Some ["Vivaspot-WiFi"; "Maggies"] |}
              "contact-2" eq_refl eq_refl eq_refl eq_refl) as [H _].
  exact H.
Defined.

(* ================================================================== *)
(** * The sync pipeline, continued *)
(* ================================================================== *)

Lemma no_marker_count (w : World) (locationId email : string) :
  existsb (marker_matches locationId (toLowerCase email)) (synced_contacts w) = false ->
  marker_count locationId email w = 0%nat.
Proof. intros H. unfold marker_count. now rewrite no_marker_filter. Qed.

Ltac sync_request_sent Hrow :=
  refine (ex_intro _ [_] _);
  split; [reflexivity|];
  split; [solve [cbn; repeat constructor]|];
  split; [solve [cbn; repeat constructor]|];
  split; [solve [repeat (constructor; try exact I)]|];
  constructor; [|solve [constructor]];
  unfold sync_request; cbn [body_locationId body_email body_source body_tags];
  split; [solve [unfold resolve, join_active_connections in *; rewrite Hrow;
                 reflexivity]|];
  split; [assumption|];
  split; [solve [now apply no_marker_count]|];
  repeat split.

(** X8. One invocation of [processContact] sends at most one refresh
    request and then at most one contact request, whatever the store and
    the CRM do; and it sends a contact request only for an event that is
    opted in, to the tenant the device resolves to, when that tenant has no
    marker for the email. *)
Theorem processContact_requests (contact : Contact) (w : World) :
  let w' := snd (processContact contact w) in
  exists refreshes requests,
    exchanges_since w w' = refreshes ++ requests
    /\ (List.length refreshes <= 1)%nat
    /\ (List.length requests <= 1)%nat
    /\ Forall is_refresh refreshes
    /\ Forall (sync_request contact w) requests.
Proof.
  unfold exchanges_since. run_pipeline.
  all: rewrite <- ?app_assoc, ?skipn_exact, ?skipn_whole.
  all: rewrite ?some_marker_existsb in *.
  all: try solve [exists [], []; repeat split; auto].
  all: try solve [refine (ex_intro _ [_] _); exists []; repeat split; auto;
                  repeat constructor].
  all: apply negb_false_iff in Heqb1.
  all: try solve [exists []; sync_request_sent Heqo].
  all: try solve [refine (ex_intro _ [_] _); sync_request_sent Heqo].
Qed.


Lemma update_tokens_ids (locationId a r : string) (t : Z) (rows : list Connection) :
  map ghl_location_id (update_tokens locationId a r t rows) = map ghl_location_id rows
  /\ map is_active (update_tokens locationId a r t rows) = map is_active rows.
Proof.
  unfold update_tokens. rewrite !map_map. split; apply map_ext; intros gc;
    now destruct (String.eqb (ghl_location_id gc) locationId).
Qed.

Lemma processContact_frame (contact : Contact) (w : World) :
  let w' := snd (processContact contact w) in
  location_mappings w' = location_mappings w
  /\ mac_mappings w' = mac_mappings w
  /\ vivaspot_sites w' = vivaspot_sites w
  /\ now w' = now w
  /\ (ghl_connections w' = ghl_connections w
      \/ exists locationId a r t,
          ghl_connections w' = update_tokens locationId a r t (ghl_connections w)).
Proof.
  run_pipeline.
  all: repeat (split; [reflexivity|]).
  all: try solve [left; reflexivity].
  all: right; do 4 eexists; reflexivity.
Qed.

(** X10. A sync never changes the setup: [processContact] leaves the
    mappings, the venue directory and the clock as they are, keeps the
    location and the activity of every connection, and so leaves every
    device resolving to the tenant it resolved to. *)
Theorem sync_keeps_resolution (contact : Contact) (w : World) :
  let w' := snd (processContact contact w) in
  location_mappings w' = location_mappings w
  /\ mac_mappings w' = mac_mappings w
  /\ vivaspot_sites w' = vivaspot_sites w
  /\ now w' = now w
  /\ map ghl_location_id (ghl_connections w') = map ghl_location_id (ghl_connections w)
  /\ map is_active (ghl_connections w') = map is_active (ghl_connections w)
  /\ forall mac, resolve w' mac = resolve w mac.
Proof.
  destruct (processContact_frame contact w) as (Hmaps & Hmacs & Hsites & Hnow & Hconns).
  cbv zeta. repeat (split; [assumption|]).
  destruct Hconns as [Hconns | (locationId & a & r & t & Hconns)].
  - rewrite Hconns. repeat split.
    intros mac. unfold resolve, join_active_connections. now rewrite Hmaps, Hconns.
  - rewrite Hconns. destruct (update_tokens_ids locationId a r t (ghl_connections w)).
    repeat split; try assumption.
    intros mac. eapply resolve_update_tokens; eassumption.
Qed.



(* ================================================================== *)
(** * Reading the ledger *)
(* ================================================================== *)

Lemma firstn_In {A : Type} (n : nat) (l : list A) (x : A) :
  In x (firstn n l) -> In x l.
Proof.
  revert l. induction n as [|n IH]; intros [|y l]; cbn; try tauto.
  intros [H|H]; [now left | right; now apply IH].
Qed.



Lemma status_counts (logs : list SyncLogRow) :
  List.length logs
  = (List.length (filter (row_has_status Success) logs)
     + List.length (filter (row_has_status Skipped) logs)
     + List.length (filter (row_has_status Error) logs))%nat.
Proof.
  induction logs as [|row logs IH]; [reflexivity|].
  cbn [filter].
  destruct (row_has_status Success row) eqn:E1, (row_has_status Skipped row) eqn:E2,
           (row_has_status Error row) eqn:E3;
    unfold row_has_status in E1, E2, E3; destruct (sl_status row); try discriminate;
    cbn [List.length]; lia.
Qed.

Lemma no_skipped_kept (contact : Contact) (w : World) :
  no_skipped (sync_log w) -> no_skipped (sync_log (snd (processContact contact w))).
Proof.
  intros Hinv. pose proof (processContact_ledger contact w) as H. cbv zeta in H.
  unfold no_skipped in *.
  assert (Hadd : forall row, sl_status row <> Skipped ->
                             Forall (fun r => row_has_status Skipped r = false)
                                    (sync_log w ++ [row])).
  { intros row Hs. apply Forall_app. split; [assumption|].
    constructor; [|constructor]. unfold row_has_status.
    destruct (sl_status row); congruence. }
  destruct (fst (processContact contact w)) as [r|message]; [|now rewrite H].
  destruct (status r).
  - destruct H as (row & -> & Hs & _). apply Hadd. congruence.
  - now rewrite H.
  - destruct (present (mac contact) && present (email contact)); [|now rewrite H].
    destruct H as (row & -> & Hs & _). apply Hadd. congruence.
Qed.

(** X13. The sync status of a location adds up, and its skipped count
    stays at zero: [processContact] never writes an entry with status
    skipped, so a ledger without such entries has none after an
    invocation, and [GET /api/sync-status] then reports no skipped entry
    and as many entries as successes and errors together. *)
Theorem sync_status_never_counts_skipped (contact : Contact) (locationId : string)
        (limit : option Z) (w : World) :
  no_skipped (sync_log w) ->
  let w' := snd (processContact contact w) in
  no_skipped (sync_log w')
  /\ forall stats logs,
      fst (apiSyncStatus locationId limit w') = Return (SyncStatus stats logs) ->
      stats_skipped stats = 0%nat
      /\ stats_total stats = (stats_success stats + stats_errors stats)%nat
      /\ stats_total stats = List.length logs.
Proof.
  intros Hinv w'. pose proof (no_skipped_kept contact w Hinv) as Hkept.
  fold w' in Hkept. split; [exact Hkept|].
  intros stats logs. unfold apiSyncStatus, try_catch, bind, ret.
  set (effective := match limit with
                    | Some n => if (n =? 0)%Z then 50%Z else n
                    | None => 50%Z
                    end).
  destruct (getSyncLogs locationId effective w') as [[rows|message] w''] eqn:Hrun;
    [|discriminate].
  cbn. intros [= <- <-]. cbn.
  assert (Hrows : forall row, In row rows -> In row (sync_log w')).
  { unfold getSyncLogs, bind, run_query, throw, get_world, ret in Hrun.
    destruct (db_faults w') as [|[message|] faults]; cbn in Hrun; try discriminate;
      destruct (effective <? 0)%Z; try discriminate;
      injection Hrun as <- _; intros row Hin;
      apply firstn_In, in_rev, filter_In in Hin; tauto. }
  assert (Hnone : filter (row_has_status Skipped) rows = []).
  { apply filter_nothing. intros row Hin. unfold no_skipped in Hkept.
    rewrite Forall_forall in Hkept. apply Hkept. now apply Hrows. }
  pose proof (status_counts rows) as Hsum. rewrite Hnone in *. cbn in *.
  repeat split; lia.
Qed.

Lemma sync_status_never_counts_skipped_witness :
  no_skipped (sync_log (snd (processContact returning_guest
                               (snd (processContact willing_guest renewing_world))))).
Proof.
  assert (H0 : no_skipped (sync_log renewing_world)) by constructor.
  destruct (sync_status_never_counts_skipped willing_guest "loc1" None renewing_world H0)
    as [H1 _].
  destruct (sync_status_never_counts_skipped returning_guest "loc1" None _ H1) as [H2 _].
  exact H2.
Defined.

(* ================================================================== *)
(** * Uninstalling and installing a tenant *)
(* ================================================================== *)

Lemma rows_after_deactivate (locationId : string) (lm : LocationMapping)
      (connections : list Connection) :
  map (fun gc => {| mapping := lm; connection := gc |})
      (filter (fun gc => String.eqb (lm_location_id lm) (ghl_location_id gc) && is_active gc)
              (map (deactivate locationId) connections))
  = filter (fun row => negb (String.eqb (lm_location_id (mapping row)) locationId))
           (map (fun gc => {| mapping := lm; connection := gc |})
                (filter (fun gc => String.eqb (lm_location_id lm) (ghl_location_id gc)
                                   && is_active gc)
                        connections)).
Proof.
  induction connections as [|gc connections IH]; [reflexivity|].
  cbn [map filter]. unfold deactivate at 1 2.
  destruct (String.eqb (ghl_location_id gc) locationId) eqn:Hid.
  - cbn [ghl_location_id is_active]. rewrite andb_false_r.
    apply String.eqb_eq in Hid.
    destruct (String.eqb (lm_location_id lm) (ghl_location_id gc) && is_active gc) eqn:Hq;
      [|exact IH].
    apply andb_true_iff in Hq. destruct Hq as [Hq _]. apply String.eqb_eq in Hq.
    assert (Hlm : String.eqb (lm_location_id lm) locationId = true)
      by (apply String.eqb_eq; congruence).
    cbn [map filter mapping]. rewrite Hlm. exact IH.
  - destruct (String.eqb (lm_location_id lm) (ghl_location_id gc) && is_active gc) eqn:Hq;
      [|exact IH].
    apply andb_true_iff in Hq. destruct Hq as [Hq _]. apply String.eqb_eq in Hq.
    assert (Hlm : String.eqb (lm_location_id lm) locationId = false)
      by (rewrite Hq; exact Hid).
    cbn [map filter mapping]. rewrite Hlm. cbn [negb]. rewrite IH.
    unfold deactivate. now rewrite Hid.
Qed.

Lemma join_after_deactivate (locationId normalizedMac : string) (w w' : World) :
  ghl_connections w' = map (deactivate locationId) (ghl_connections w) ->
  location_mappings w' = location_mappings w ->
  join_active_connections w' normalizedMac
  = filter (fun row => negb (String.eqb (lm_location_id (mapping row)) locationId))
           (join_active_connections w normalizedMac).
Proof.
  intros Hgc Hlm. unfold join_active_connections. rewrite Hgc, Hlm.
  induction (filter (fun lm => String.eqb (vivaspot_mac lm) normalizedMac)
                    (location_mappings w)) as [|lm rows IH]; [reflexivity|].
  cbn [flat_map]. now rewrite filter_app, IH, rows_after_deactivate.
Qed.

Lemma hd_error_filter {A : Type} (p : A -> bool) (l : list A) (x : A) :
  hd_error (filter p l) = Some x -> p x = true.
Proof.
  induction l as [|y l IH]; cbn; [discriminate|].
  destruct (p y) eqn:Hp; [|exact IH]. cbn. now intros [= <-].
Qed.

(** X14. [POST /webhook/ghl/uninstall] with a location, when the update
    runs: the answer is success, no device resolves to the uninstalled
    location afterwards, a device that resolved to another location still
    does, and the mappings, markers and ledger are kept.  Without a
    location in the body, or with an empty one, nothing is changed. *)
Theorem uninstall_unresolves_location (locationId : string) (w : World) :
  hd None (db_faults w) = None ->
  locationId <> "" ->
  let w' := snd (webhookUninstall (Some locationId) w) in
  fst (webhookUninstall (Some locationId) w) = Return UninstallDone
  /\ (forall mac, resolve w' mac <> Some locationId)
  /\ (forall mac other, other <> locationId -> resolve w mac = Some other ->
                        resolve w' mac = Some other)
  /\ location_mappings w' = location_mappings w
  /\ mac_mappings w' = mac_mappings w
  /\ synced_contacts w' = synced_contacts w
  /\ sync_log w' = sync_log w
  /\ webhookUninstall None w = (Return UninstallDone, w)
  /\ webhookUninstall (Some "") w = (Return UninstallDone, w).
Proof.
  intros Hfault Hid w'. apply String.eqb_neq in Hid.
  assert (Hrun : fst (webhookUninstall (Some locationId) w) = Return UninstallDone
                 /\ ghl_connections w' = map (deactivate locationId) (ghl_connections w)
                 /\ location_mappings w' = location_mappings w
                 /\ mac_mappings w' = mac_mappings w
                 /\ synced_contacts w' = synced_contacts w
                 /\ sync_log w' = sync_log w).
  { subst w'. unfold webhookUninstall, try_catch, bind, deactivateGHLConnection, bind,
      run_query, modify, ret. cbn [present text]. rewrite Hid. cbn [negb].
    destruct (db_faults w) as [|[message|] faults]; cbn in Hfault; try discriminate;
      cbn; repeat split; reflexivity. }
  destruct Hrun as (Hdone & Hgc & Hlm & Hmm & Hsc & Hsl).
  repeat split; try assumption.
  - intros mac Hres. unfold resolve in Hres.
    rewrite (join_after_deactivate locationId _ w w' Hgc Hlm) in Hres.
    destruct (hd_error _) as [row|] eqn:Hrow; [|discriminate].
    apply hd_error_filter in Hrow. cbn in Hres. injection Hres as Hres.
    rewrite Hres, String.eqb_refl in Hrow. discriminate.
  - intros mac other Hother Hres. unfold resolve in *.
    rewrite (join_after_deactivate locationId _ w w' Hgc Hlm).
    destruct (join_active_connections w (normalizeLocationMac mac)) as [|row rows];
      [discriminate|].
    cbn in Hres. injection Hres as Hres. cbn [filter]. rewrite Hres.
    apply String.eqb_neq in Hother. rewrite Hother. cbn. congruence.
Qed.

Lemma uninstall_unresolves_location_witness :
  resolve renewing_world "00:18:0A:27:29:76" = Some "loc1"
  /\ resolve (snd (webhookUninstall (Some "loc1") renewing_world)) "00:18:0A:27:29:76"
     <> Some "loc1".
Proof.
  split; [reflexivity|].
  destruct (uninstall_unresolves_location "loc1" renewing_world eq_refl)
    as (_ & H & _); [discriminate|].
  apply H.
Defined.






(* ================================================================== *)
(** * Registering a device through the API *)
(* ================================================================== *)

Lemma resolve_ids (w : World) (mac : string) :
  resolve w mac
  = hd_error (map (fun row => lm_location_id (mapping row))
                  (join_active_connections w (normalizeLocationMac mac))).
Proof.
  unfold resolve. now destruct (join_active_connections w (normalizeLocationMac mac)).
Qed.

Lemma join_ids_renamed (f : LocationMapping -> LocationMapping)
      (mappings : list LocationMapping) (connections : list Connection)
      (normalizedMac : string) :
  (forall lm, lm_location_id (f lm) = lm_location_id lm
              /\ vivaspot_mac (f lm) = vivaspot_mac lm) ->
  map (fun row => lm_location_id (mapping row))
      (flat_map
         (fun lm =>
            map (fun gc => {| mapping := lm; connection := gc |})
                (filter (fun gc => String.eqb (lm_location_id lm) (ghl_location_id gc)
                                   && is_active gc)
                        connections))
         (filter (fun lm => String.eqb (vivaspot_mac lm) normalizedMac)
                 (map f mappings)))
  = map (fun row => lm_location_id (mapping row))
        (flat_map
           (fun lm =>
              map (fun gc => {| mapping := lm; connection := gc |})
                  (filter (fun gc => String.eqb (lm_location_id lm) (ghl_location_id gc)
                                     && is_active gc)
                          connections))
           (filter (fun lm => String.eqb (vivaspot_mac lm) normalizedMac) mappings)).
Proof.
  intros Hf. induction mappings as [|lm mappings IH]; [reflexivity|].
  cbn [map filter]. destruct (Hf lm) as [Hid Hmac]. rewrite Hmac.
  destruct (String.eqb (vivaspot_mac lm) normalizedMac); [|exact IH].
  cbn [flat_map]. rewrite !map_app, IH, Hid. f_equal.
  rewrite !map_map. cbn [mapping]. now rewrite Hid.
Qed.

(** X16. [POST /api/mappings] over a store that does not fault: when the
    route answers with the mapping, the row is in the table under the
    location given and the upper-case, colon-separated address, and every
    spelling of the address with that normal form resolves afterwards: to
    the location it resolved to before when there was one (a device mapped
    to two locations stays with the first), and to the location given
    otherwise. *)
Theorem apiAddMapping_registers (location_id mac name : option string) (w : World)
        (row : LocationMapping) :
  db_faults w = [] ->
  fst (apiAddMapping location_id mac name w) = Return (MappingAdded row) ->
  let w' := snd (apiAddMapping location_id mac name w) in
  lm_location_id row = text location_id
  /\ vivaspot_mac row = normalizeLocationMac (text mac)
  /\ In row (location_mappings w')
  /\ macRegex (text mac) = true
  /\ forall spelled,
      normalizeLocationMac spelled = normalizeLocationMac (text mac) ->
      resolve w' spelled = match resolve w spelled with
                           | Some first => Some first
                           | None => Some (text location_id)
                           end.
Proof.
  intros Hfaults. unfold apiAddMapping, try_catch, bind, ret.
  destruct (present location_id); cbn [negb]; [|discriminate].
  destruct (present mac); cbn [negb]; [|discriminate].
  destruct (macRegex (text mac)) eqn:Hregex; cbn [negb]; [|discriminate].
  unfold getGHLConnection, bind, query, get_world, ret. rewrite Hfaults.
  destruct (find _ (ghl_connections w)) as [gc|] eqn:Hgc; [|discriminate].
  apply find_some in Hgc. destruct Hgc as [Hin Hgc].
  apply andb_true_iff in Hgc. destruct Hgc as [Hid Hactive]. apply String.eqb_eq in Hid.
  unfold addLocationMapping, bind, query, modify, ret. rewrite Hfaults.
  set (key := normalizeLocationMac (text mac)).
  set (loc := text location_id) in *.
  set (added := {| lm_location_id := loc; vivaspot_mac := key;
                   vivaspot_location := if present name then text name else "" |}).
  set (same := fun lm => String.eqb (lm_location_id lm) loc
                         && String.eqb (vivaspot_mac lm) key).
  cbn [fst snd]. intros [= <-].
  repeat split.
  - destruct (existsb same (location_mappings w)) eqn:Hex; cbn.
    + apply existsb_exists in Hex. destruct Hex as (lm & Hlm & Hsame).
      apply in_map_iff. exists lm. unfold same in Hsame.
      split; [now rewrite Hsame | assumption].
    + apply in_or_app. right. now left.
  - intros spelled Hkey. rewrite !resolve_ids, Hkey. fold key.
    unfold join_active_connections.
    destruct (existsb same (location_mappings w)) eqn:Hex; cbn [ghl_connections
      location_mappings with_location_mappings].
    + rewrite join_ids_renamed.
      * apply existsb_exists in Hex. destruct Hex as (lm & Hlm & Hsame).
        apply andb_true_iff in Hsame. destruct Hsame as [Hloc Hmac].
        apply String.eqb_eq in Hloc.
        destruct (hd_error _) as [first|] eqn:Hfirst; [reflexivity|].
        exfalso.
        assert (Hrow : In loc
                          (map (fun row => lm_location_id (mapping row))
                               (flat_map
                                  (fun lm =>
                                     map (fun gc => {| mapping := lm; connection := gc |})
                                         (filter (fun gc => String.eqb (lm_location_id lm)
                                                                       (ghl_location_id gc)
                                                            && is_active gc)
                                                 (ghl_connections w)))
                                  (filter (fun lm => String.eqb (vivaspot_mac lm) key)
                                          (location_mappings w))))).
        { apply in_map_iff. exists {| mapping := lm; connection := gc |}.
          split; [exact Hloc|]. apply in_flat_map. exists lm. split.
          - apply filter_In. now split.
          - apply in_map, filter_In. split; [assumption|].
            rewrite Hloc, Hid, String.eqb_refl. exact Hactive. }
        destruct (map _ _); [destruct Hrow | discriminate].
      * intros lm. cbn beta. unfold same.
        destruct (_ && _) eqn:Hsame; [|now split].
        apply andb_true_iff in Hsame. destruct Hsame as [Hloc Hmac].
        apply String.eqb_eq in Hloc. apply String.eqb_eq in Hmac. now split.
    + rewrite filter_app, flat_map_app, map_app. cbn [filter vivaspot_mac added].
      rewrite String.eqb_refl. cbn [flat_map]. rewrite app_nil_r, map_map.
      cbn [mapping lm_location_id].
      destruct (map _ (flat_map _ _)) as [|first rows]; [|reflexivity].
      cbn [app]. destruct (filter _ (ghl_connections w)) as [|gc' rest] eqn:Hnone;
        [|reflexivity].
      exfalso. assert (Hmember : In gc (filter (fun gc0 => String.eqb (lm_location_id added)
                                                                      (ghl_location_id gc0)
                                                           && is_active gc0)
                                               (ghl_connections w))).
      { apply filter_In. split; [assumption|]. cbn. now rewrite Hid, String.eqb_refl. }
      rewrite Hnone in Hmember. destruct Hmember.
Qed.

Lemma apiAddMapping_registers_witness :
  resolve (snd (apiAddMapping (Some "loc1") (Some "aa-bb-cc-dd-ee-ff") None renewing_world))
          "AA:BB:CC:dd:ee:ff"
  = Some "loc1".
Proof.
  refine (proj2 (proj2 (proj2 (proj2
            (apiAddMapping_registers (Some "loc1") (Some "aa-bb-cc-dd-ee-ff") None
               renewing_world _ eq_refl eq_refl))))
            "AA:BB:CC:dd:ee:ff" eq_refl).
Defined.

(* ================================================================== *)
(** * Looking up a bulk-mapped device *)
(* ================================================================== *)

Lemma find_first_row {A : Type} (p : A -> bool) (l : list A) :
  find p l = hd_error (filter p l).
Proof.
  induction l as [|x l IH]; [reflexivity|]. cbn. now destruct (p x).
Qed.


Lemma createMacMappingsWithTag_reliable (locationId : string) (macAddresses : list string)
      (sourceRestaurant sourceTag : option string) (w : World) :
  db_faults w = [] ->
  let w' := snd (createMacMappingsWithTag locationId macAddresses sourceRestaurant
                                          sourceTag w) in
  db_faults w' = []
  /\ mac_mappings w'
     = fold_left (upsert locationId sourceRestaurant sourceTag)
                 (map normalizeMappingMac (filter accepted macAddresses))
                 (mac_mappings w).
Proof.
  intros Hreliable. destruct macAddresses as [|mac rest]; [now split|].
  unfold createMacMappingsWithTag.
  destruct (mapEachMac_reliable locationId sourceRestaurant sourceTag (mac :: rest) 0 w
              Hreliable) as (_ & Hfaults & Htable).
  now split.
Qed.



(* ================================================================== *)
(** * The key of the markers *)
(* ================================================================== *)

Lemma marker_matches_key (locationId email : string) (row : SyncedContact) :
  marker_matches locationId email row = true <-> marker_key row = (locationId, email).
Proof.
  unfold marker_matches, marker_key. rewrite andb_true_iff, !String.eqb_eq.
  split; [intros [-> ->]; reflexivity | intros [= -> ->]; now split].
Qed.

Lemma existsb_marker_key (locationId email : string) (table : list SyncedContact) :
  existsb (marker_matches locationId email) table = true
  <-> In (locationId, email) (map marker_key table).
Proof.
  rewrite existsb_exists, in_map_iff. split.
  - intros (row & Hin & Hrow). apply marker_matches_key in Hrow. eauto.
  - intros (row & Hrow & Hin). apply marker_matches_key in Hrow. eauto.
Qed.


Lemma unique_markers_added (row : SyncedContact) (table : list SyncedContact) :
  unique_markers table ->
  existsb (marker_matches (sc_location_id row) (contact_email row)) table = false ->
  unique_markers (table ++ [row]).
Proof.
  unfold unique_markers. intros Hkey Hnew. rewrite map_app.
  apply NoDup_app; [assumption | repeat constructor; intros [] |].
  intros k Hk [<-|[]]. apply existsb_marker_key in Hk. congruence.
Qed.



Lemma processContact_marker_step (contact : Contact) (w : World) :
  let w' := snd (processContact contact w) in
  synced_contacts w' = synced_contacts w
  \/ exists row,
      synced_contacts w' = synced_contacts w ++ [row]
      /\ existsb (marker_matches (sc_location_id row) (contact_email row))
                 (synced_contacts w) = false
      /\ toLowerCase (contact_email row) = contact_email row.
Proof.
  run_pipeline.
  all: try solve [left; reflexivity].
  all: right; eexists; (split; [reflexivity|]); cbn [sc_location_id contact_email].
  all: change (map_chars lower_char) with toLowerCase in *.
  all: split; [assumption | apply toLowerCase_idempotent].
Qed.

(** X19. [processContact] keeps the markers well-formed, whatever the
    store and the CRM do: with (location, email) a key of
    [synced_contacts] and every marker email in lower case before, both
    hold afterwards, and the markers there were are kept as they were (at
    most one is added). *)
Theorem processContact_keeps_marker_key (contact : Contact) (w : World) :
  unique_markers (synced_contacts w) ->
  lowercase_markers (synced_contacts w) ->
  let w' := snd (processContact contact w) in
  unique_markers (synced_contacts w')
  /\ lowercase_markers (synced_contacts w')
  /\ exists added, synced_contacts w' = synced_contacts w ++ added
                   /\ (List.length added <= 1)%nat.
Proof.
  intros Hkey Hlower w'.
  destruct (processContact_marker_step contact w) as [Hsame|(row & Hrow & Hnew & Hcase)];
    fold w' in Hsame || fold w' in Hrow.
  - rewrite Hsame. repeat split; try assumption.
    exists []. rewrite app_nil_r. split; [reflexivity | cbn; lia].
  - rewrite Hrow. repeat split.
    + now apply unique_markers_added.
    + apply Forall_app. split; [assumption | now repeat constructor].
    + exists [row]. split; [reflexivity | cbn; lia].
Qed.

Lemma processContact_keeps_marker_key_witness :
  unique_markers
    (synced_contacts (snd (processContact returning_guest
                             (snd (processContact willing_guest renewing_world))))).
Proof.
  assert (H0 : unique_markers (synced_contacts renewing_world)) by constructor.
  assert (L0 : lowercase_markers (synced_contacts renewing_world)) by constructor.
  destruct (processContact_keeps_marker_key willing_guest renewing_world H0 L0)
    as (H1 & L1 & _).
  exact (proj1 (processContact_keeps_marker_key returning_guest _ H1 L1)).
Defined.

(* ================================================================== *)
(** * Manual setup *)
(* ================================================================== *)

Lemma canonical_chars (hex : string) :
  all_chars is_hex_lower hex = true ->
  all_chars (fun c => is_hex_lower c || Ascii.eqb c ":") (String.concat ":" (octets hex))
  = true.
Proof.
  induction hex as [| a | a b hex IH] using string_pair_ind; intros H;
    [reflexivity | reflexivity |].
  cbn [all_chars] in H.
  apply andb_true_iff in H. destruct H as [Ha H].
  apply andb_true_iff in H. destruct H as [Hb H].
  specialize (IH H). cbn [octets]. destruct (octets hex) as [|o os].
  - cbn. now rewrite Ha, Hb.
  - change (String.concat ":" (String a (String b "") :: o :: os))
      with (String a (String b (String ":" (String.concat ":" (o :: os))))).
    cbn [all_chars]. rewrite Ha, Hb, IH. reflexivity.
Qed.

Lemma canonical_char_plain (c : ascii) :
  is_hex_lower c || Ascii.eqb c ":" = true -> lower_char c = c /\ not_space c = true.
Proof.
  destruct c as [[] [] [] [] [] [] [] []]; vm_compute; intuition congruence.
Qed.

Lemma toLowerCase_fixed (s : string) :
  all_chars (fun c => is_hex_lower c || Ascii.eqb c ":") s = true -> toLowerCase s = s.
Proof.
  unfold toLowerCase. induction s as [|c s IH]; [reflexivity|].
  cbn. intros H. apply andb_true_iff in H. destruct H as [Hc H].
  destruct (canonical_char_plain c Hc) as [-> _]. now rewrite IH.
Qed.

Lemma canonical_is_mapping_key (mac canonical : string) :
  normalizeMacAddress mac = Some canonical ->
  accepted canonical = true /\ normalizeMappingMac canonical = canonical.
Proof.
  rewrite normalizeMacAddress_hex_digits.
  destruct (is_hex12 (hex_digits mac)) eqn:H12; [|discriminate]. intros [= <-].
  unfold is_hex12 in H12. apply andb_true_iff in H12. destruct H12 as [Hlen Hall].
  apply Nat.eqb_eq in Hlen.
  pose proof (canonical_chars _ Hall) as Hchars.
  assert (Hfixed : normalizeMappingMac (String.concat ":" (octets (hex_digits mac)))
                   = String.concat ":" (octets (hex_digits mac))).
  { unfold normalizeMappingMac. rewrite (toLowerCase_fixed _ Hchars).
    assert (Hplain : all_chars not_space (String.concat ":" (octets (hex_digits mac)))
                     = true).
    { revert Hchars. apply all_chars_weaken. intros c Hc.
      apply (canonical_char_plain c Hc). }
    destruct (no_space_edges _ Hplain) as [Hfirst Hlast]. now apply trim_fixed. }
  split; [|exact Hfixed].
  rewrite accepted_long. fold (normalizeMappingMac (String.concat ":" (octets (hex_digits mac)))).
  now rewrite Hfixed, (canonical_length _ Hlen).
Qed.

Lemma normalizeAll_valid (macAddresses : list string) :
  snd (normalizeAll macAddresses) = [] ->
  Forall2 (fun mac canonical => normalizeMacAddress mac = Some canonical)
          macAddresses (fst (normalizeAll macAddresses)).
Proof.
  induction macAddresses as [|mac rest IH]; [constructor|].
  cbn [normalizeAll]. destruct (normalizeAll rest) as [normalized invalid].
  destruct (normalizeMacAddress mac) as [canonical|] eqn:Hmac; cbn [fst snd] in *;
    [|discriminate].
  intros Hinvalid. constructor; [exact Hmac | now apply IH].
Qed.




Lemma fold_upsert_fixed_keys (canonicals : list string) :
  Forall (fun c => accepted c = true /\ normalizeMappingMac c = c) canonicals ->
  filter accepted canonicals = canonicals
  /\ map normalizeMappingMac canonicals = canonicals.
Proof.
  induction 1 as [|c canonicals [Hlong Hfixed] _ [IHf IHm]]; [now split|].
  cbn. rewrite Hlong, Hfixed, IHf. split; [reflexivity | now f_equal].
Qed.

(** X21. [POST /setup/:locationId/save] over a store that does not fault
    and with [mac_address] a key of [mac_mappings]: when the route answers
    with a count, the count is the number of submitted addresses, and each
    of them is found by [getMacMappingWithTag] under its colon-separated
    lower-case form, mapped to the location of the request without
    restaurant or tag. *)
Theorem setupSave_maps_every_address (locationId : string) (macAddresses : list string)
        (mapped : nat) (w : World) :
  db_faults w = [] ->
  unique_macs (mac_mappings w) ->
  fst (setupSave locationId macAddresses w) = Return (SetupSaved mapped) ->
  let w' := snd (setupSave locationId macAddresses w) in
  mapped = List.length macAddresses
  /\ forall mac,
      In mac macAddresses ->
      exists canonical,
        normalizeMacAddress mac = Some canonical
        /\ fst (getMacMappingWithTag canonical w')
           = Return (Some (mapped_row locationId None None canonical)).
Proof.
  intros Hreliable Hkey. unfold setupSave.
  destruct (String.eqb locationId ""); [discriminate|].
  destruct macAddresses as [|first rest]; [discriminate|].
  pose proof (normalizeAll_valid (first :: rest)) as Hvalid.
  destruct (normalizeAll (first :: rest)) as [normalized invalid]. cbn [fst snd] in Hvalid.
  destruct invalid; [|discriminate]. specialize (Hvalid eq_refl).
  assert (Hkeys : Forall (fun c => accepted c = true /\ normalizeMappingMac c = c)
                         normalized).
  { clear -Hvalid. induction Hvalid as [|mac c macs cs Hmac _ IH]; constructor;
      [now apply (canonical_is_mapping_key mac) | assumption]. }
  destruct (fold_upsert_fixed_keys _ Hkeys) as [Haccepted Hfixed].
  unfold try_catch, bind, getGHLConnection, bind, query, get_world, ret.
  rewrite Hreliable.
  destruct (find _ (ghl_connections w)); [|discriminate].
  unfold createMacMappings.
  assert (Hrun : fst (createMacMappingsWithTag locationId normalized None None w)
                 = Return (List.length normalized)
                 /\ db_faults (snd (createMacMappingsWithTag locationId normalized None None w))
                    = []
                 /\ mac_mappings
                      (snd (createMacMappingsWithTag locationId normalized None None w))
                    = fold_left (upsert locationId None None) normalized (mac_mappings w)).
  { destruct (createMacMappingsWithTag_reliable locationId normalized None None w Hreliable)
      as [Hfaults Htable].
    rewrite Haccepted, Hfixed in Htable. split; [|now split].
    destruct normalized as [|key keys]; [reflexivity|].
    unfold createMacMappingsWithTag.
    destruct (mapEachMac_reliable locationId None None (key :: keys) 0 w Hreliable)
      as (Hcount & _). cbv zeta in Hcount. now rewrite Hcount, Haccepted. }
  destruct (createMacMappingsWithTag locationId normalized None None w) as [[count|message] w']
    eqn:Hcreate; cbn [fst snd] in *; destruct Hrun as (Hcount & Hfaults & Htable);
    [|discriminate].
  injection Hcount as ->. intros [= <-]. split.
  - symmetry. apply (Forall2_length Hvalid).
  - intros mac Hin.
    assert (Hcanonical : exists canonical,
               normalizeMacAddress mac = Some canonical /\ In canonical normalized).
    { clear -Hvalid Hin. induction Hvalid as [|m c macs cs Hm _ IH]; [destruct Hin|].
      destruct Hin as [->|Hin]; [exists c; split; [assumption | now left]|].
      destruct (IH Hin) as (c' & Hc' & Hin'). exists c'. split; [assumption | now right]. }
    destruct Hcanonical as (canonical & Hmac & Hmember). exists canonical.
    split; [assumption|].
    unfold getMacMappingWithTag, bind, query, get_world, ret. rewrite Hfaults.
    cbn [fst]. f_equal. rewrite find_first_row.
    destruct (canonical_is_mapping_key _ _ Hmac) as [_ ->].
    fold (rows_for canonical (mac_mappings w')). rewrite Htable.
    now rewrite fold_upsert_row.
Qed.

Lemma setupSave_maps_every_address_witness :
  exists canonical,
    normalizeMacAddress "00-18-0A-27-29-77" = Some canonical
    /\ fst (getMacMappingWithTag canonical
              (snd (setupSave "loc1" ["0018.0a27.2976"; "00-18-0A-27-29-77"]
                      tagged_world)))
       = Return (Some (mapped_row "loc1" None None canonical)).
Proof.
  refine (proj2 (setupSave_maps_every_address "loc1"
                   ["0018.0a27.2976"; "00-18-0A-27-29-77"] 2 tagged_world
                   eq_refl _ eq_refl) "00-18-0A-27-29-77" _).
  - repeat constructor. intros [].
  - right. now left.
Defined.

(* ================================================================== *)
(** * The batch route *)
(* ================================================================== *)






(* ================================================================== *)
(** * Whose venues the site matcher returns *)
(* ================================================================== *)

Ltac run_matcher :=
  repeat match goal with
         | |- context [match db_faults ?w with _ => _ end] =>
             destruct (db_faults w) as [|[?|] ?]; cbn
         | |- context [match ?l with _ => _ end] =>
             is_var l;
             lazymatch type of l with
             | list (option string) => destruct l as [|[?|] ?]; cbn
             end
         | |- context [match filter ?p ?l with _ => _ end] =>
             destruct (filter p l) as [|? [|? ?]] eqn:?; cbn
         | |- context [match ?best ?l with _ => _ end] =>
             is_var best; destruct (best l) eqn:?; cbn
         end.

Lemma filter_head_member {A : Type} (p : A -> bool) (l rest : list A) (x : A) :
  filter p l = x :: rest -> p x = true /\ In x l.
Proof.
  intros H. assert (Hin : In x (filter p l)) by (rewrite H; now left).
  apply filter_In in Hin. tauto.
Qed.

Lemma name_row_owned (normalizedEmail normalizedName : string) (site : Site) :
  name_row normalizedEmail normalizedName site = true ->
  owned_by normalizedEmail site = true.
Proof. unfold name_row. intros H. now apply andb_true_iff in H. Qed.

Lemma group_row_owned (normalizedEmail normalizedName : string) (site : Site) :
  group_row normalizedEmail normalizedName site = true ->
  owned_by normalizedEmail site = true.
Proof. unfold group_row. intros H. now apply andb_true_iff in H. Qed.

Lemma matchSingleSite_owned (normalizedEmail normalizedName : string) (w : World)
      (site : Site) :
  fst (matchSingleSite normalizedEmail normalizedName w) = Return (MatchSingle site) ->
  owned_by normalizedEmail site = true /\ In site (vivaspot_sites w).
Proof.
  unfold matchSingleSite, bind, query, get_world, ret.
  remember (find (fun site => (1 <=? List.length (matchingWords normalizedName site))%nat))
    as best eqn:Hbest.
  run_matcher; try discriminate; intros [= <-].
  all: try solve [match goal with
                  | H : filter _ _ = _ :: _ |- _ =>
                      apply filter_head_member in H; destruct H as [H ?];
                      split; [exact H || exact (name_row_owned _ _ _ H) | assumption]
                  end].
  all: subst best.
  all: match goal with
       | H : find _ _ = Some _, F : filter (owned_by _) _ = _ |- _ =>
           apply find_some in H; destruct H as [H _];
           rewrite <- F in H; apply filter_In in H; tauto
       end.
Qed.

Lemma findVivaSpotMatch_owned (email locationName : string) (w : World) :
  let owned site :=
    owned_by (trim (toLowerCase email)) site = true /\ In site (vivaspot_sites w) in
  match fst (findVivaSpotMatch email locationName w) with
  | Return (MatchGroup _ sites) => Forall owned sites
  | Return (MatchSingle site) => owned site
  | _ => True
  end.
Proof.
  intros owned.
  unfold findVivaSpotMatch, bind, query, get_world, ret.
  set (normalizedEmail := trim (toLowerCase email)) in *.
  set (normalizedName := trim (toLowerCase locationName)).
  assert (Hgroup : forall v, vivaspot_sites v = vivaspot_sites w ->
                             Forall owned
                                    (order_by_name
                                       (filter (group_row normalizedEmail normalizedName)
                                               (vivaspot_sites v)))).
  { intros v Hv. apply Forall_forall. intros site Hin.
    apply (Permutation_in _ (order_by_name_perm _)) in Hin.
    apply filter_In in Hin. destruct Hin as [Hin Hrow]. rewrite Hv in Hin.
    split; [exact (group_row_owned _ _ _ Hrow) | assumption]. }
  assert (Hsingle : forall v, vivaspot_sites v = vivaspot_sites w ->
                              match fst (matchSingleSite normalizedEmail normalizedName v)
                              with
                              | Return (MatchGroup _ sites) => Forall owned sites
                              | Return (MatchSingle site) => owned site
                              | _ => True
                              end).
  { intros v Hv.
    pose proof (matchSingleSite_owned normalizedEmail normalizedName v) as Howned.
    pose proof (matchSingleSite_not_group normalizedEmail normalizedName v) as Hnot.
    destruct (fst (matchSingleSite normalizedEmail normalizedName v)) as [[g sites|site|]|];
      try exact I.
    - specialize (Hnot _ eq_refl). discriminate Hnot.
    - destruct (Howned site eq_refl) as [Ho Hin]. rewrite Hv in Hin. now split. }
  destruct (db_faults w) as [|[message|] faults]; cbn [fst]; try exact I.
  - specialize (Hgroup w eq_refl). specialize (Hsingle w eq_refl).
    destruct (order_by_name _) as [|first [|second rows]]; assumption.
  - set (v := with_faults faults (fault_log w) w).
    specialize (Hgroup v eq_refl). specialize (Hsingle v eq_refl).
    change (vivaspot_sites w) with (vivaspot_sites v).
    destruct (order_by_name _) as [|first [|second rows]]; assumption.
Qed.

(** X23. [findVivaSpotMatch] only returns venues of the merchant: every
    venue of a group result and the venue of a single result is a row of
    the directory whose owner emails hold the lowercased, trimmed email,
    whatever strategy found it and whatever the store does; the venue that
    [findVivaSpotSiteByEmailAndName] returns is such a row as well. *)
Theorem findVivaSpotMatch_returns_owned_venues (email locationName : string) (w : World) :
  let owned site :=
    owned_by (trim (toLowerCase email)) site = true /\ In site (vivaspot_sites w) in
  match fst (findVivaSpotMatch email locationName w) with
  | Return (MatchGroup _ sites) => Forall owned sites
  | Return (MatchSingle site) => owned site
  | _ => True
  end
  /\ match fst (findVivaSpotSiteByEmailAndName email locationName w) with
     | Return (Some site) => owned site
     | _ => True
     end.
Proof.
  intros owned. pose proof (findVivaSpotMatch_owned email locationName w) as Hmatch.
  cbv zeta in Hmatch. fold owned in Hmatch.
  split; [exact Hmatch|].
  unfold findVivaSpotSiteByEmailAndName, bind, ret.
  destruct (findVivaSpotMatch email locationName w) as [[[g sites|site|]|message] w'];
    cbn [fst] in *; try exact I; try exact Hmatch.
  destruct sites as [|first rest]; [exact I|]. cbn. now inversion Hmatch.
Qed.

Lemma filter_within {A : Type} (p r : A -> bool) (l : list A) :
  (forall x, r x = true -> p x = true) -> filter r l = filter r (filter p l).
Proof.
  intros Hrp. induction l as [|x l IH]; [reflexivity|].
  cbn [filter]. destruct (p x) eqn:Hp.
  - cbn [filter]. destruct (r x); now rewrite IH.
  - destruct (r x) eqn:Hr; [|exact IH]. rewrite (Hrp x Hr) in Hp. discriminate.
Qed.

Lemma matchSingleSite_sole (normalizedEmail normalizedName : string) (w : World) :
  db_faults w = [] ->
  matchSingleSite normalizedEmail normalizedName w
  = match filter (owned_by normalizedEmail) (vivaspot_sites w) with
    | [] => (Return MatchNone, w)
    | [site] => (Return (MatchSingle site), w)
    | _ => matchSingleSite normalizedEmail normalizedName w
    end.
Proof.
  intros Hreliable.
  pose proof (filter_within (owned_by normalizedEmail)
                (name_row normalizedEmail normalizedName) (vivaspot_sites w)
                (name_row_owned normalizedEmail normalizedName)) as Hrows.
  destruct (filter (owned_by normalizedEmail) (vivaspot_sites w))
    as [|site [|second rest]] eqn:Hvenues; [| |reflexivity].
  - unfold matchSingleSite, bind, query, get_world, ret. rewrite Hreliable.
    cbv beta iota zeta. rewrite Hrows. cbn [filter]. rewrite Hreliable.
    cbv beta iota zeta. now rewrite Hvenues.
  - unfold matchSingleSite, bind, query, get_world, ret. rewrite Hreliable.
    cbv beta iota zeta. rewrite Hrows. cbn [filter].
    destruct (name_row normalizedEmail normalizedName site); [reflexivity|].
    rewrite Hreliable. cbv beta iota zeta. now rewrite Hvenues.
Qed.

(** X24. A merchant with exactly one venue is matched to it whatever the
    location name: over a store that does not fault, when exactly one row
    of the directory holds the lowercased, trimmed email among its owner
    emails, [findVivaSpotMatch] answers with that venue as a single result,
    and when no row does it answers none. *)
Theorem sole_venue_matches_any_name (email locationName : string) (w : World) :
  db_faults w = [] ->
  let venues := filter (owned_by (trim (toLowerCase email))) (vivaspot_sites w) in
  (forall site, venues = [site] ->
                findVivaSpotMatch email locationName w = (Return (MatchSingle site), w))
  /\ (venues = [] -> findVivaSpotMatch email locationName w = (Return MatchNone, w)).
Proof.
  intros Hreliable venues.
  set (normalizedEmail := trim (toLowerCase email)) in *.
  set (normalizedName := trim (toLowerCase locationName)).
  assert (Hrun : (List.length venues <= 1)%nat ->
                 findVivaSpotMatch email locationName w
                 = matchSingleSite normalizedEmail normalizedName w).
  { intros Hfew. unfold findVivaSpotMatch, bind, query, get_world, ret.
    rewrite Hreliable. cbv beta iota zeta. fold normalizedEmail normalizedName.
    assert (Hrows : (List.length (filter (group_row normalizedEmail normalizedName)
                                         (vivaspot_sites w)) <= 1)%nat).
    { rewrite (filter_within (owned_by normalizedEmail) _ _
                 (group_row_owned normalizedEmail normalizedName)).
      fold venues. destruct venues as [|site [|second rest]]; cbn in *;
        [lia | destruct (group_row _ _ site); cbn; lia | lia]. }
    rewrite <- order_by_name_length in Hrows.
    destruct (order_by_name _) as [|first [|second rows]]; cbn in Hrows;
      [reflexivity | reflexivity | lia]. }
  pose proof (matchSingleSite_sole normalizedEmail normalizedName w Hreliable) as Hsole.
  fold venues in Hsole. split.
  - intros site Hvenues. rewrite Hrun by (rewrite Hvenues; cbn; lia).
    now rewrite Hsole, Hvenues.
  - intros Hvenues. rewrite Hrun by (rewrite Hvenues; cbn; lia).
    now rewrite Hsole, Hvenues.
Qed.

Lemma sole_venue_matches_any_name_witness :
  findVivaSpotMatch " Owner@Acme.com" "Somewhere else"
                    (directory [acme 1 "Harbor Grill" "owner@acme.com"])
  = (Return (MatchSingle (acme 1 "Harbor Grill" "owner@acme.com")),
     directory [acme 1 "Harbor Grill" "owner@acme.com"]).
Proof.
  apply (sole_venue_matches_any_name " Owner@Acme.com" "Somewhere else"
           (directory [acme 1 "Harbor Grill" "owner@acme.com"]) eq_refl).
  reflexivity.
Defined.

(* ================================================================== *)
(** * Mapping the venues of a hospitality group *)
(* ================================================================== *)








(* ================================================================== *)
(** * Refreshing tokens by hand *)
(* ================================================================== *)

Lemma find_updated_tokens (locationId a r : string) (t : Z) (rows : list Connection) :
  find (fun gc => String.eqb (ghl_location_id gc) locationId && is_active gc)
       (update_tokens locationId a r t rows)
  = option_map (set_tokens a r t)
               (find (fun gc => String.eqb (ghl_location_id gc) locationId && is_active gc)
                     rows).
Proof.
  induction rows as [|gc rows IH]; [reflexivity|].
  cbn [update_tokens map find]. fold (update_tokens locationId a r t rows).
  destruct (String.eqb (ghl_location_id gc) locationId) eqn:Hid.
  - cbn [set_tokens ghl_location_id is_active]. rewrite Hid.
    destruct (is_active gc); [reflexivity | exact IH].
  - rewrite Hid. exact IH.
Qed.

(** X26. [POST /oauth/refresh] over a store that does not fault, for a
    non-empty location id.  Without an active connection it answers 404,
    sends nothing and changes nothing.  With one it sends exactly one
    refresh request, carrying the stored refresh token, however far off the
    expiry is; when the endpoint answers with tokens the connection holds
    them afterwards, with expiry [now + expires_in * 1000], and when it
    does not the route answers 500 with the message and the connections
    are left as they were. *)
Theorem oauthRefresh_renews (locationId : string) (found : option Connection) (w : World) :
  db_faults w = [] ->
  locationId <> "" ->
  fst (getGHLConnection locationId w) = Return found ->
  let w' := snd (oauthRefresh (Some locationId) w) in
  match found with
  | None =>
      oauthRefresh (Some locationId) w = (Return (RefreshNotFound "Connection not found"), w)
  | Some gc =>
      exchanges_since w w'
      = [RefreshExchange (refresh_token gc) (next_token_response w)]
      /\ match next_token_response w with
         | TokenOk a r e =>
             fst (oauthRefresh (Some locationId) w) = Return RefreshDone
             /\ fst (getGHLConnection locationId w')
                = Return (Some (set_tokens a r (now w + e * 1000) gc))
         | failure =>
             fst (oauthRefresh (Some locationId) w)
             = Return (RefreshFailure (text (refresh_error failure)))
             /\ ghl_connections w' = ghl_connections w
         end
  end.
Proof.
  intros Hreliable Hid Hfound w'. apply String.eqb_neq in Hid.
  assert (Hrow : find (fun gc => String.eqb (ghl_location_id gc) locationId && is_active gc)
                      (ghl_connections w) = found).
  { unfold getGHLConnection, bind, query, get_world, ret in Hfound.
    rewrite Hreliable in Hfound. now injection Hfound. }
  subst w'.
  unfold oauthRefresh, try_catch, bind, getGHLConnection, bind, query, get_world, ret.
  cbn [present text]. rewrite Hid. cbn [negb]. cbv beta iota zeta.
  rewrite Hreliable. cbv beta iota zeta. rewrite Hrow.
  destruct found as [gc|]; [|reflexivity].
  unfold refreshAccessToken, updateGHLTokens, bind, date_now, query, modify, get_world, ret.
  destruct (next_token_response w) as [a r e|reason|message]; cbn -[update_tokens];
    repeat (rewrite Hreliable; cbn -[update_tokens]).
  - split; [apply skipn_exact|]. split; [reflexivity|].
    now rewrite find_updated_tokens, Hrow.
  - split; [apply skipn_exact | now split].
  - split; [apply skipn_exact | now split].
Qed.

Lemma oauthRefresh_renews_witness :
  fst (getGHLConnection "loc1" (snd (oauthRefresh (Some "loc1") renewing_world)))
  = Return (Some (set_tokens "new-access" "new-refresh" 3600000 expiring_connection)).
Proof.
  exact (proj2 (proj2 (oauthRefresh_renews "loc1" (Some expiring_connection) renewing_world
                         eq_refl ltac:(discriminate) eq_refl))).
Defined.

(* ================================================================== *)
(** * The single-event route *)
(* ================================================================== *)

Lemma processContact_body (contact : Contact) (w : World) (accessToken : string)
      (body : ContactBody) (answer : ContactResponse) :
  In (ContactExchange accessToken body answer)
     (exchanges_since w (snd (processContact contact w))) ->
  body_phone body = if_value (phone contact)
  /\ body_firstName body = if_value (Some (fst (parseName (name contact))))
  /\ body_lastName body = if_value (Some (snd (parseName (name contact))))
  /\ answer = next_contact_response w.
Proof.
  unfold exchanges_since. run_pipeline.
  all: rewrite <- ?app_assoc, ?skipn_exact, ?skipn_whole.
  all: intros Hin; cbn in Hin.
  all: repeat match goal with
              | H : _ \/ _ |- _ => destruct H as [H|H]
              | H : False |- _ => destruct H
              | H : RefreshExchange _ _ = ContactExchange _ _ _ |- _ => discriminate H
              | H : ContactExchange _ _ _ = ContactExchange _ _ _ |- _ =>
                  injection H as <- <- <-
              end.
  all: cbn [body_phone body_firstName body_lastName].
  all: repeat split; try reflexivity; try congruence.
  all: try solve [symmetry; eassumption].
Qed.

Lemma webhookContact_run (body : WebhookBody) (w : World) :
  snd (webhookContact body w) = snd (processContact (event_of body) w)
  /\ fst (webhookContact body w)
     = match fst (processContact (event_of body) w) with
       | Return result =>
           Return (WebhookResult result
                     (now (snd (processContact (event_of body) w)) - now w))
       | Throw message => Return (WebhookFailure message)
       end.
Proof.
  unfold webhookContact, try_catch, bind, date_now, ret. fold (event_of body).
  now destruct (processContact (event_of body) w) as [[result|message] w'].
Qed.

(** X27. [POST /webhook/contact] always answers: with the result of
    [processContact], or with status 500 and the message when
    [processContact] rejects, and then no ledger entry has been written.
    A contact request sent on the way carries the phone of the event, or
    its mobile number when the phone is missing or empty, and the first and
    last name that [parseName] makes of the name, each only when it is not
    empty. *)
Theorem webhookContact_forwards_event (body : WebhookBody) (w : World) :
  let w' := snd (webhookContact body w) in
  (exists response,
      fst (webhookContact body w) = Return response
      /\ match response with
         | WebhookResult result _ => fst (processContact (event_of body) w) = Return result
         | WebhookFailure message =>
             fst (processContact (event_of body) w) = Throw message
             /\ sync_log w' = sync_log w
         end)
  /\ forall accessToken request answer,
      In (ContactExchange accessToken request answer) (exchanges_since w w') ->
      body_phone request
      = if_value (if present (wb_phone body) then wb_phone body else wb_mobile body)
      /\ body_firstName request = if_value (Some (fst (parseName (wb_name body))))
      /\ body_lastName request = if_value (Some (snd (parseName (wb_name body)))).
Proof.
  intros w'. destruct (webhookContact_run body w) as [Hworld Hanswer].
  subst w'. rewrite Hworld, Hanswer. split.
  - pose proof (processContact_ledger (event_of body) w) as Hledger. cbv zeta in Hledger.
    destruct (fst (processContact (event_of body) w)) as [result|message];
      eexists; (split; [reflexivity|]); [reflexivity | now split].
  - intros accessToken request answer Hin.
    destruct (processContact_body (event_of body) w _ _ _ Hin) as (Hphone & Hfirst & Hlast & _).
    now repeat split.
Qed.

(* ================================================================== *)
(** * The venues offered for manual selection *)
(* ================================================================== *)

Lemma find_by_id (sites : list Site) (site : Site) :
  NoDup (map site_id sites) ->
  In site sites ->
  find (fun s => (site_id s =? site_id site)%Z) sites = Some site.
Proof.
  induction sites as [|first rest IH]; intros Hkey Hin; [destruct Hin|].
  cbn [map] in Hkey. inversion Hkey as [|k ks Hfresh Hkey']; subst.
  cbn [find]. destruct (site_id first =? site_id site)%Z eqn:Hid.
  - destruct Hin as [->|Hin]; [reflexivity|].
    apply Z.eqb_eq in Hid. exfalso. apply Hfresh. rewrite Hid. now apply in_map.
  - destruct Hin as [->|Hin]; [rewrite Z.eqb_refl in Hid; discriminate|].
    now apply IH.
Qed.

(** X28. The list that [getVivaSpotSitesByEmail] offers for manual
    selection covers the site matcher: over a store that does not fault it
    holds one row per venue owned by the lowercased, trimmed email, and
    every venue that [findVivaSpotMatch] returns for that email, as a
    single result or in a group, whatever the location name, is in it.
    With [id] a key of the directory, [getVivaSpotSiteMacs] returns for
    the id of a venue the identifiers of that venue. *)
Theorem selection_list_covers_matcher (email locationName : string) (w : World) :
  db_faults w = [] ->
  exists rows,
    fst (getVivaSpotSitesByEmail email w) = Return rows
    /\ List.length rows
       = List.length (filter (owned_by (trim (toLowerCase email))) (vivaspot_sites w))
    /\ match fst (findVivaSpotMatch email locationName w) with
       | Return (MatchGroup _ sites) => Forall (fun site => In (summary_of site) rows) sites
       | Return (MatchSingle site) => In (summary_of site) rows
       | _ => True
       end
    /\ (NoDup (map site_id (vivaspot_sites w)) ->
        forall site, In site (vivaspot_sites w) ->
                     fst (getVivaSpotSiteMacs (site_id site) w)
                     = Return (mac_addresses site)).
Proof.
  intros Hreliable.
  set (venues := filter (owned_by (trim (toLowerCase email))) (vivaspot_sites w)).
  exists (map summary_of (order_by_name venues)).
  assert (Hlisted : forall site,
             owned_by (trim (toLowerCase email)) site = true /\ In site (vivaspot_sites w) ->
             In (summary_of site) (map summary_of (order_by_name venues))).
  { intros site [Howned Hin]. apply in_map.
    apply (Permutation_in _ (Permutation_sym (order_by_name_perm venues))).
    apply filter_In. now split. }
  split; [|split; [|split]].
  - unfold getVivaSpotSitesByEmail, bind, run_query, get_world, ret.
    now rewrite Hreliable.
  - now rewrite length_map, order_by_name_length.
  - pose proof (findVivaSpotMatch_owned email locationName w) as Howned.
    cbv zeta in Howned.
    destruct (fst (findVivaSpotMatch email locationName w)) as [[g sites|site|]|message];
      try exact I.
    + revert Howned. apply Forall_impl. exact Hlisted.
    + now apply Hlisted.
  - intros Hkey site Hin.
    unfold getVivaSpotSiteMacs, bind, run_query, get_world, ret. rewrite Hreliable.
    cbn [fst]. now rewrite (find_by_id _ _ Hkey Hin).
Qed.

Lemma selection_list_covers_matcher_witness :
  exists rows,
    fst (getVivaSpotSitesByEmail "Owner@Acme.com " (directory two_venues)) = Return rows
    /\ List.length rows = 2%nat.
Proof.
  destruct (selection_list_covers_matcher "Owner@Acme.com " "Acme"
              (directory two_venues) eq_refl) as (rows & Hrows & Hlength & _).
  exists rows. split; [exact Hrows | exact Hlength].
Defined.
